(** * neuralnets: the hand-written LSTM cell and the decoder-only transformer

    A shallow embedding of the model code of the teaching notebooks
    ([LSTM.lstm_unit], [LSTM.forward], [PositionEncoding], [Attention],
    [DecoderTransformer] and [predict]) together with the properties the
    specification states about them.

    Tensors of rank 1 are lists, tensors of rank 2 are lists of rows.
    Python exceptions (an index out of range, a shape mismatch) are [None].
    The LSTM cell is written once over an interface of scalar operations, so
    its structural properties hold for every interpretation of the tensor
    arithmetic; the instance [RScalar] reads the operations in exact real
    arithmetic, which is also the reading used for the transformer.  The
    bounds on the memories and the prediction of the cell are proved from
    the laws [TensorLaws], which arithmetic that rounds and has NaN and
    infinities satisfies as well.

    A list of rows does not record the width of a tensor with no row, so
    the size checks of [matmul] and [linear] are made row by row: on a
    tensor with no row they are not made.  The transformer is in exact
    arithmetic: a scaling by [sqrt 0] is a division by 0, read as in the
    reals, where a float tensor has NaN. *)

From Stdlib Require Import String List Arith Bool Lia Sorted.
From Stdlib Require Import Reals Lra Psatz.
Import ListNotations.

Set Implicit Arguments.

(** ** Errors: the option monad *)

Definition bind {A B : Type} (m : option A) (k : A -> option B) : option B :=
  match m with
  | Some a => k a
  | None => None
  end.

Notation "x <- m ;; k" := (bind m (fun x => k))
  (at level 61, m at next level, right associativity).

(** ** The scalar operations the LSTM cell uses *)

Class TensorScalar (T : Type) : Type := {
  ts_zero : T;
  ts_add : T -> T -> T;
  ts_mul : T -> T -> T;
  ts_sigmoid : T -> T;
  ts_tanh : T -> T
}.

(** torch.sigmoid, read over the reals *)
Definition sigmoid (x : R) : R := (1 / (1 + exp (- x)))%R.

#[export] Instance RScalar : TensorScalar R := {
  ts_zero := 0%R;
  ts_add := Rplus;
  ts_mul := Rmult;
  ts_sigmoid := sigmoid;
  ts_tanh := tanh
}.

(** ** The LSTM cell (class [LSTM]; [LSTMbyHand] of the Lightning notebook
    has the same body) *)

Module LSTM.
Section Cell.
Context {T : Type} `{TensorScalar T}.

Local Infix "+" := ts_add.
Local Infix "*" := ts_mul.

(** The twelve parameters declared by [__init__]. *)
Record params : Type := {
  wlr1 : T; wlr2 : T; blr1 : T;
  wpr1 : T; wpr2 : T; bpr1 : T;
  wp1 : T; wp2 : T; bp1 : T;
  wo1 : T; wo2 : T; bo1 : T
}.

Definition lstm_unit (self : params) (input_value long_memory short_memory : T)
  : T * T :=
  let long_remember_percent :=
    ts_sigmoid ((short_memory * wlr1 self) +
                (input_value * wlr2 self) +
                blr1 self) in
  let potential_remember_percent :=
    ts_sigmoid ((short_memory * wpr1 self) +
                (input_value * wpr2 self) +
                bpr1 self) in
  let potential_memory :=
    ts_tanh ((short_memory * wp1 self) +
             (input_value * wp2 self) +
             bp1 self) in
  let updated_long_memory :=
    ((long_memory * long_remember_percent) +
     (potential_remember_percent * potential_memory)) in
  let output_percent :=
    ts_sigmoid ((short_memory * wo1 self) +
                (input_value * wo2 self)) in
  let updated_short_memory := ts_tanh updated_long_memory * output_percent in
  (updated_long_memory, updated_short_memory).

(** [X[i]] raises IndexError past the end of [X]. *)
Definition forward (self : params) (X : list T) : option T :=
  let long_memory := ts_zero in
  let short_memory := ts_zero in
  day1 <- nth_error X 0 ;;
  day2 <- nth_error X 1 ;;
  day3 <- nth_error X 2 ;;
  day4 <- nth_error X 3 ;;
  let '(long_memory, short_memory) := lstm_unit self day1 long_memory short_memory in
  let '(long_memory, short_memory) := lstm_unit self day2 long_memory short_memory in
  let '(long_memory, short_memory) := lstm_unit self day3 long_memory short_memory in
  let '(long_memory, short_memory) := lstm_unit self day4 long_memory short_memory in
  Some short_memory.

(** One cell update on a memory state [(long, short)]. *)
Definition step (self : params) (state : T * T) (x : T) : T * T :=
  lstm_unit self x (fst state) (snd state).

(** The same parameters with another value for the output-gate bias. *)
Definition with_bo1 (self : params) (b : T) : params :=
  {| wlr1 := wlr1 self; wlr2 := wlr2 self; blr1 := blr1 self;
     wpr1 := wpr1 self; wpr2 := wpr2 self; bpr1 := bpr1 self;
     wp1 := wp1 self; wp2 := wp2 self; bp1 := bp1 self;
     wo1 := wo1 self; wo2 := wo2 self; bo1 := b |}.
End Cell.
Arguments params T : clear implicits.
End LSTM.

(** ** Rank-1 and rank-2 tensors over the reals *)

Definition vector : Type := list R.
Definition matrix : Type := list (list R).

Module Torch.
Local Open Scope R_scope.

(** Apply a fallible function to every element; the first failure wins. *)
Fixpoint traverse {A B : Type} (f : A -> option B) (l : list A) : option (list B) :=
  match l with
  | [] => Some []
  | a :: l' =>
      b <- f a ;;
      bs <- traverse f l' ;;
      Some (b :: bs)
  end.

(** A binary operation along one dimension under PyTorch's broadcasting rule:
    the sizes agree, or one of them is 1 and that element is repeated. *)
Definition zip_broadcast {A B C : Type} (f : A -> B -> option C)
    (u : list A) (v : list B) : option (list C) :=
  if (length u =? length v)%nat then
    traverse (fun p => f (fst p) (snd p)) (combine u v)
  else
    match u, v with
    | [a], _ => traverse (fun b => f a b) v
    | _, [b] => traverse (fun a => f a b) u
    | _, _ => None
    end.

Definition sum (l : vector) : R := fold_right Rplus 0 l.

(** The inner product of two rows of the same size. *)
Definition dot (u v : vector) : option R :=
  if (length u =? length v)%nat then
    Some (sum (map (fun p => fst p * snd p) (combine u v)))
  else None.

(** [a + b] on rank-2 tensors. *)
Definition add (a b : matrix) : option matrix :=
  zip_broadcast (zip_broadcast (fun x y => Some (x + y))) a b.

(** [torch.matmul(a, b.transpose(0, 1))]: entry (i, j) is the inner product
    of row i of [a] and row j of [b]. *)
Definition matmul_transposed (a b : matrix) : option matrix :=
  traverse (fun a_i => traverse (fun b_j => dot a_i b_j) b) a.

(** Column [c] of a matrix all of whose rows reach that far. *)
Definition column (b : matrix) (c : nat) : option vector :=
  traverse (fun row => nth_error row c) b.

(** [torch.matmul(a, b)] where [b] has [width] columns ([b.size(1)], which a
    list of rows does not record when [b] has no row). *)
Definition matmul (a b : matrix) (width : nat) : option matrix :=
  if forallb (fun row => (length row =? width)%nat) b then
    traverse (fun a_i =>
      traverse (fun c => b_c <- column b c ;; dot a_i b_c) (seq 0 width)) a
  else None.

(** [t.masked_fill(mask=mask, value=value)] *)
Definition masked_fill (t : matrix) (mask : list (list bool)) (value : R)
  : option matrix :=
  zip_broadcast
    (zip_broadcast (fun x (m : bool) => Some (if m then value else x))) t mask.

(** [F.softmax] of one row *)
Definition softmax_row (row : vector) : vector :=
  map (fun x => exp x / sum (map exp row)) row.

(** [F.softmax(t, dim=1)] *)
Definition softmax (t : matrix) : matrix := map softmax_row t.

(** [torch.ones((n, m))] *)
Definition ones (n m : nat) : matrix := repeat (repeat 1 m) n.

(** [torch.tril(t)]: entries above the diagonal become 0. *)
Definition tril (t : matrix) : matrix :=
  map (fun ir =>
         map (fun jx => if (fst jx <=? fst ir)%nat then snd jx else 0)
             (combine (seq 0 (length (snd ir))) (snd ir)))
      (combine (seq 0 (length t)) t).

(** [t == 0] *)
Definition eq_zero (t : matrix) : list (list bool) :=
  map (map (fun x => if Req_EM_T x 0 then true else false)) t.

(** The index of the first greatest entry ([torch.argmax] of a rank-1
    tensor); an empty tensor has none. *)
Fixpoint argmax_from (best : nat) (best_value : R) (i : nat) (l : vector) : nat :=
  match l with
  | [] => best
  | x :: l' =>
      if Rlt_dec best_value x then argmax_from i x (S i) l'
      else argmax_from best best_value (S i) l'
  end.

Definition argmax (l : vector) : option nat :=
  match l with
  | [] => None
  | x :: l' => Some (argmax_from 0%nat x 1%nat l')
  end.

(** [nn.Linear]: [weight] has one row per output feature. *)
Record Linear : Type := {
  weight : matrix;
  bias : option vector
}.

Definition linear_row (self : Linear) (x : vector) : option vector :=
  y <- traverse (fun w => dot x w) (weight self) ;;
  match bias self with
  | None => Some y
  | Some b =>
      if (length b =? length y)%nat then
        Some (map (fun p => fst p + snd p) (combine y b))
      else None
  end.

Definition linear (self : Linear) (x : matrix) : option matrix :=
  traverse (linear_row self) x.

(** Every row has [d] entries. *)
Definition rows_of_width (d : nat) {A : Type} (m : list (list A)) : Prop :=
  Forall (fun row => length row = d) m.

(** [nn.Embedding]: row lookup by token id; an id outside the table raises. *)
Definition embedding (table : matrix) (token_ids : list nat) : option matrix :=
  traverse (fun id => nth_error table id) token_ids.

End Torch.

(** ** Positional encoding (class [PositionEncoding]) *)

Module PositionEncoding.
Import Torch.
Local Open Scope R_scope.

(** [torch.arange(start=0, end=max_len, step=1).float()] *)
Definition position (max_len : nat) : vector := map INR (seq 0 max_len).

(** [torch.arange(start=0, end=d_model, step=2).float()] *)
Definition embedding_index (d_model : nat) : vector :=
  map (fun i => INR (2 * i)) (seq 0 (Nat.div2 (S d_model))).

(** [1 / torch.tensor(10000.)**(embedding_index / d_model)] *)
Definition div_term (d_model : nat) : vector :=
  map (fun e => 1 / Rpower 10000 (e / INR d_model)) (embedding_index d_model).

(** [position * div_term], a column times a row *)
Definition angles (d_model max_len : nat) : matrix :=
  map (fun p => map (fun dt => p * dt) (div_term d_model)) (position max_len).

(** Is column [j] one of [start], [start + 2], ...? *)
Definition selected (start j : nat) : bool :=
  (start <=? j)%nat && Nat.even (j - start).

(** [row[start::2] = src] on one row: [src] has one entry per selected column,
    or a single entry that is repeated. *)
Definition assign_stride2 (start : nat) (row src : vector) : option vector :=
  let slots := length (filter (selected start) (seq 0 (length row))) in
  src <- (if (length src =? slots)%nat then Some src
          else match src with
               | [s] => Some (repeat s slots)
               | _ => None
               end) ;;
  Some (map (fun jx =>
               if selected start (fst jx)
               then nth (Nat.div2 (fst jx - start)) src 0
               else snd jx)
            (combine (seq 0 (length row)) row)).

(** [pe[:, start::2] = src]; both sides have [max_len] rows.  The sizes of
    the columns are compared row by row, so a table without rows passes. *)
Definition assign_columns (start : nat) (pe src : matrix) : option matrix :=
  if (length pe =? length src)%nat then
    traverse (fun rs => assign_stride2 start (fst rs) (snd rs)) (combine pe src)
  else None.

(** [__init__]: the table registered as the buffer [pe]. *)
Definition init (d_model max_len : nat) : option matrix :=
  let pe := repeat (repeat 0 d_model) max_len in
  pe <- assign_columns 0 pe (map (map sin) (angles d_model max_len)) ;;
  pe <- assign_columns 1 pe (map (map cos) (angles d_model max_len)) ;;
  Some pe.

(** [forward]: [word_embeddings + self.pe[:word_embeddings.size(0)]] *)
Definition forward (pe : matrix) (word_embeddings : matrix) : option matrix :=
  add word_embeddings (firstn (length word_embeddings) pe).

End PositionEncoding.

(** ** Single-head attention (class [Attention]) *)

Module Attention.
Import Torch.
Local Open Scope R_scope.

(** The three bias-free linear maps; [d_model] is their number of output
    features, the size of dimension 1 of [q], [k] and [v]. *)
Record t : Type := {
  W_q : Linear;
  W_k : Linear;
  W_v : Linear
}.

(** The value written over the masked similarities. *)
Definition mask_value : R := 1e-9.

(** The body of [forward], returning the local [attention_percents] next to
    the result [attention_scores]. *)
Definition forward_locals (self : t) (encodings_for_q encodings_for_k encodings_for_v : matrix)
    (mask : option (list (list bool))) : option (matrix * matrix) :=
  q <- linear (W_q self) encodings_for_q ;;
  k <- linear (W_k self) encodings_for_k ;;
  v <- linear (W_v self) encodings_for_v ;;
  sims <- matmul_transposed q k ;;
  let scaled_sims :=
    map (map (fun s => s / sqrt (INR (length (weight (W_k self)))))) sims in
  scaled_sims <- match mask with
                 | Some mask => masked_fill scaled_sims mask mask_value
                 | None => Some scaled_sims
                 end ;;
  let attention_percents := softmax scaled_sims in
  attention_scores <-
    matmul attention_percents v (length (weight (W_v self))) ;;
  Some (attention_percents, attention_scores).

Definition forward (self : t) (encodings_for_q encodings_for_k encodings_for_v : matrix)
    (mask : option (list (list bool))) : option matrix :=
  r <- forward_locals self encodings_for_q encodings_for_k encodings_for_v mask ;;
  Some (snd r).

End Attention.

(** ** The decoder (class [DecoderTransformer]) *)

Module DecoderTransformer.
Import Torch.
Local Open Scope R_scope.

Record t : Type := {
  we : matrix;
  pe : matrix;
  self_attention : Attention.t;
  fc_layer : Linear
}.

(** [__init__] with the trainable parameters given; the table of positional
    encodings is computed from [d_model] and [max_len]. *)
Definition init (d_model max_len : nat) (we : matrix)
    (self_attention : Attention.t) (fc_layer : Linear) : option t :=
  pe <- PositionEncoding.init d_model max_len ;;
  Some {| we := we; pe := pe;
          self_attention := self_attention; fc_layer := fc_layer |}.

(** [torch.tril(torch.ones((n, n))) == 0] *)
Definition causal_mask (n : nat) : list (list bool) :=
  eq_zero (tril (ones n n)).

Definition forward (self : t) (token_ids : list nat) : option matrix :=
  word_embeddings <- embedding (we self) token_ids ;;
  position_encoded <- PositionEncoding.forward (pe self) word_embeddings ;;
  let mask := causal_mask (length token_ids) in
  self_attention_values <-
    Attention.forward (self_attention self)
      position_encoded position_encoded position_encoded (Some mask) ;;
  residual_connection_values <- add position_encoded self_attention_values ;;
  fc_layer_output <- linear (fc_layer self) residual_connection_values ;;
  Some fc_layer_output.

End DecoderTransformer.

(** ** Generation ([predict]) *)

Module Predict.
Import Torch.

(** The vocabulary of the notebook. *)
Definition token_to_id : list (string * nat) :=
  [("what"%string, 0); ("is"%string, 1); ("kael"%string, 2);
   ("awesome"%string, 3); ("<EOS>"%string, 4)].

(** [dict(map(reversed, token_to_id.items()))] *)
Definition id_to_token : list (nat * string) :=
  map (fun kv => (snd kv, fst kv)) token_to_id.

(** [d[key]]; a missing key raises KeyError. *)
Fixpoint getitem {K V : Type} (eqb : K -> K -> bool) (d : list (K * V)) (key : K)
  : option V :=
  match d with
  | [] => None
  | (k, v) :: d' => if eqb k key then Some v else getitem eqb d' key
  end.

(** Computations that call the model: the state is the list of the inputs
    of the forward passes made so far, kept when an exception is raised. *)
Definition M (A : Type) : Type :=
  list (list nat) -> option A * list (list nat).

Definition ret {A : Type} (a : A) : M A := fun log => (Some a, log).

Definition lift {A : Type} (o : option A) : M A := fun log => (o, log).

Definition bindM {A B : Type} (m : M A) (k : A -> M B) : M B :=
  fun log =>
    match m log with
    | (Some a, log') => k a log'
    | (None, log') => (None, log')
    end.

Notation "x <~ m ;; k" := (bindM m (fun x => k))
  (at level 61, m at next level, right associativity).

(** [model(model_input)], one forward pass *)
Definition call (model : DecoderTransformer.t) (model_input : list nat) : M matrix :=
  fun log => (DecoderTransformer.forward model model_input, log ++ [model_input]).

(** [torch.argmax(predictions[-1, :])] *)
Definition argmax_last (predictions : matrix) : option nat :=
  match predictions with
  | [] => None
  | _ :: _ => argmax (last predictions [])
  end.

Definition max_length : nat := 6.

(** The body of [for i in range(input_length, max_length)], over the values
    of [i] still to come; [break] ends the recursion. *)
Fixpoint generate (model : DecoderTransformer.t) (range : list nat)
    (model_input : list nat) (predicted_id : nat) (predicted_ids : list nat)
  : M (list nat) :=
  match range with
  | [] => ret predicted_ids
  | _ :: range' =>
      eos <~ lift (getitem String.eqb token_to_id "<EOS>"%string) ;;
      if (predicted_id =? eos)%nat then ret predicted_ids
      else
        let model_input := model_input ++ [predicted_id] in
        predictions <~ call model model_input ;;
        predicted_id <~ lift (argmax_last predictions) ;;
        let predicted_ids := predicted_ids ++ [predicted_id] in
        generate model range' model_input predicted_id predicted_ids
  end.

(** [predict] up to its printing loop: the predicted ids. *)
Definition predicted_ids (model : DecoderTransformer.t) (model_input : list nat)
  : M (list nat) :=
  let input_length := length model_input in
  predictions <~ call model model_input ;;
  predicted_id <~ lift (argmax_last predictions) ;;
  let predicted_ids := [predicted_id] in
  generate model (seq input_length (max_length - input_length))
    model_input predicted_id predicted_ids.

(** [predict]: the tokens printed, one per line. *)
Definition predict (model : DecoderTransformer.t) (model_input : list nat)
  : M (list string) :=
  ids <~ predicted_ids model model_input ;;
  lift (traverse (getitem Nat.eqb id_to_token) ids).

(** A run from the empty log: the inputs of the forward passes, in order,
    and the predicted ids when no exception was raised. *)
Definition passes (model : DecoderTransformer.t) (model_input : list nat)
  : list (list nat) :=
  snd (predicted_ids model model_input []).

Definition outcome (model : DecoderTransformer.t) (model_input : list nat)
  : option (list nat) :=
  fst (predicted_ids model model_input []).

(** One forward pass on [input] predicts the token [tok]: the index of the
    greatest logit at the last position. *)
Definition predicts (model : DecoderTransformer.t) (input : list nat) (tok : nat)
  : Prop :=
  exists predictions : matrix,
    DecoderTransformer.forward model input = Some predictions /\
    argmax_last predictions = Some tok.

(** [next] is [input] with the token predicted from it appended, and that
    token is not the end marker (4, the id of <EOS>). *)
Definition grows (model : DecoderTransformer.t) (input next : list nat) : Prop :=
  exists tok : nat,
    predicts model input tok /\ tok <> 4 /\ next = input ++ [tok].

End Predict.

(** ** The gated memory cell as the specification words it *)

Module Spec.
Section Cell.
Context {T : Type} `{TensorScalar T}.

Local Infix "+" := ts_add.
Local Infix "*" := ts_mul.

(** A weight pair and a bias for each of the forget gate, the candidate
    gate, the candidate value and the output gate. *)
Record gates : Type := {
  w_f1 : T; w_f2 : T; b_f : T;
  w_c1 : T; w_c2 : T; b_c : T;
  w_v1 : T; w_v2 : T; b_v : T;
  w_o1 : T; w_o2 : T; b_o : T
}.

(** The per-step update of section 4.1, on input [x] and memory [(L, S)]. *)
Definition update (g : gates) (x L S : T) : T * T :=
  let forget_gate := ts_sigmoid (S * w_f1 g + x * w_f2 g + b_f g) in
  let candidate_gate := ts_sigmoid (S * w_c1 g + x * w_c2 g + b_c g) in
  let candidate_value := ts_tanh (S * w_v1 g + x * w_v2 g + b_v g) in
  let L' := L * forget_gate + candidate_gate * candidate_value in
  let output_gate := ts_sigmoid (S * w_o1 g + x * w_o2 g) in
  let S' := ts_tanh L' * output_gate in
  (L', S').

(** Which parameter of the class plays which role. *)
Definition gates_of (p : LSTM.params T) : gates :=
  {| w_f1 := LSTM.wlr1 p; w_f2 := LSTM.wlr2 p; b_f := LSTM.blr1 p;
     w_c1 := LSTM.wpr1 p; w_c2 := LSTM.wpr2 p; b_c := LSTM.bpr1 p;
     w_v1 := LSTM.wp1 p; w_v2 := LSTM.wp2 p; b_v := LSTM.bp1 p;
     w_o1 := LSTM.wo1 p; w_o2 := LSTM.wo2 p; b_o := LSTM.bo1 p |}.
End Cell.
Arguments gates T : clear implicits.
End Spec.

(** ** A decoder of the notebook's sizes with simple parameter values *)

Module Example.
Import Torch.
Local Open Scope R_scope.

Definition identity2 : matrix := [[1; 0]; [0; 1]].

Definition attention : Attention.t :=
  {| Attention.W_q := {| weight := identity2; bias := None |};
     Attention.W_k := {| weight := identity2; bias := None |};
     Attention.W_v := {| weight := identity2; bias := None |} |}.

(** Five tokens, [d_model = 2]; only the token 1 has a non-zero embedding. *)
Definition we : matrix := [[0; 0]; [1; 0]; [0; 0]; [0; 0]; [0; 0]].

Definition fc_layer : Linear :=
  {| weight := [[1; 0]; [0; 1]; [0; 0]; [0; 0]; [0; 0]];
     bias := Some [0; 0; 0; 0; 0] |}.

(** The table [PositionEncoding(d_model=2, max_len=6)] computes. *)
Definition pe : matrix :=
  map (fun p => [sin (INR p * (1 / Rpower 10000 (INR 0 / INR 2)));
                 cos (INR p * (1 / Rpower 10000 (INR 0 / INR 2)))])
      (seq 0 6).

(** [DecoderTransformer(num_tokens=5, d_model=2, max_len=6)] with these
    parameter values. *)
Definition model : DecoderTransformer.t :=
  {| DecoderTransformer.we := we;
     DecoderTransformer.pe := pe;
     DecoderTransformer.self_attention := attention;
     DecoderTransformer.fc_layer := fc_layer |}.

(** The parameters of the LSTM printed by the notebook before training. *)
Definition lstm : LSTM.params R :=
  {| LSTM.wlr1 := 0.5940740704536438; LSTM.wlr2 := -0.12711703777313232;
     LSTM.blr1 := 0;
     LSTM.wpr1 := -0.7286937236785889; LSTM.wpr2 := 0.7211949229240417;
     LSTM.bpr1 := 0;
     LSTM.wp1 := -0.566031277179718; LSTM.wp2 := 0.5780901908874512;
     LSTM.bp1 := 0;
     LSTM.wo1 := 0.30693256855010986; LSTM.wo2 := 0.6139482259750366;
     LSTM.bo1 := 0 |}.

(** The input of company A. *)
Definition company_a : list R := [0; 0.5; 0.25; 1].

End Example.

(** ** One training step of the hand-written LSTM ([LSTMbyHand.training_step]) *)

Module LSTMbyHand.
Local Open Scope R_scope.

(** [training_step(batch, batch_idx)] on a batch [(input_i, label_i)] as the
    data loader yields it: a rank-2 tensor of inputs and a rank-1 tensor of
    labels.  The result is the loss returned and the metrics passed to
    [self.log], in order; [self.log] raises unless the value has a single
    element, and so does the test [label_i == 0]. *)
Definition training_step (self : LSTM.params R) (batch : matrix * vector)
  : option (R * list (string * R)) :=
  let '(input_i, label_i) := batch in
  x <- nth_error input_i 0 ;;
  output_i <- LSTM.forward self x ;;
  match label_i with
  | [label] =>
      let loss := (label - output_i) ^ 2 in
      let logged := [("train_loss"%string, loss)] in
      let logged :=
        if Req_EM_T label 0
        then logged ++ [("out_0"%string, output_i)]
        else logged ++ [("out_1"%string, output_i)] in
      Some (loss, logged)
  | _ => None
  end.

End LSTMbyHand.

(** ** The shapes [__init__] gives the parameters *)

Module Shapes.
Import Torch.

(** [nn.Linear(in_features, out_features, bias=...)] *)
Definition linear_shape (in_features out_features : nat) (with_bias : bool)
    (l : Linear) : Prop :=
  length (weight l) = out_features /\
  rows_of_width in_features (weight l) /\
  match bias l with
  | None => with_bias = false
  | Some b => with_bias = true /\ length b = out_features
  end.

(** [Attention(d_model)] *)
Definition attention_shape (d_model : nat) (a : Attention.t) : Prop :=
  linear_shape d_model d_model false (Attention.W_q a) /\
  linear_shape d_model d_model false (Attention.W_k a) /\
  linear_shape d_model d_model false (Attention.W_v a).

(** [DecoderTransformer(num_tokens, d_model, max_len)] *)
Definition decoder_shape (num_tokens d_model max_len : nat)
    (m : DecoderTransformer.t) : Prop :=
  length (DecoderTransformer.we m) = num_tokens /\
  rows_of_width d_model (DecoderTransformer.we m) /\
  length (DecoderTransformer.pe m) = max_len /\
  rows_of_width d_model (DecoderTransformer.pe m) /\
  attention_shape d_model (DecoderTransformer.self_attention m) /\
  linear_shape d_model num_tokens true (DecoderTransformer.fc_layer m).

End Shapes.

(** ** Row by row: the similarities after scaling and masking *)

Module Masking.
Local Open Scope R_scope.

(** Row [i] of [scaled_sims] after [masked_fill] with the causal mask of
    length [n], from row [i] of [sims] and the scale [c]: the entries after
    column [i] are the mask value, the others are divided by [c]. *)
Definition masked_row (c : R) (i n : nat) (sims_i : vector) : vector :=
  map (fun p => if (i <? snd p)%nat then Attention.mask_value else fst p / c)
      (combine sims_i (seq 0 n)).

End Masking.

(** ** Tensor scalars as a float tensor has them *)

(** The scalars of a float tensor may be NaN or infinite, and every
    operation rounds its result.  [TensorOrder] names what a bound on the
    memories of the cell speaks about: which scalars are finite, which are
    not NaN (finite or infinite), the real value of a finite scalar, a bound
    [tanh_bound] on torch.tanh over [-4, 4], and the counts [n] for which
    [n + 1] is a scalar (for float32: NaN and the infinities apart, the
    value a float stands for, and [n < 2^24]). *)
Class TensorOrder (T : Type) : Type := {
  is_finite : T -> Prop;
  not_nan : T -> Prop;
  value : T -> R;
  tanh_bound : R;
  counts : nat -> Prop
}.

(** What the bounds rest on.  Each law holds of IEEE arithmetic with
    rounding to nearest, which is monotone and leaves the scalars fixed:
    a product or a sum of finite scalars is never NaN, and neither is a sum
    with one infinite term; a product with a factor of magnitude at most 1
    does not exceed the other factor; a sum stays within [n + 1] when that
    is a scalar; torch.sigmoid maps every scalar but NaN into [0, 1] and
    torch.tanh into [-1, 1], the infinities included. *)
Class TensorLaws (T : Type) `{TensorScalar T} `{TensorOrder T} : Prop := {
  zero_finite : is_finite ts_zero;
  zero_value : value ts_zero = 0%R;
  finite_not_nan : forall a : T, is_finite a -> not_nan a;
  mul_not_nan :
    forall a b : T, is_finite a -> is_finite b -> not_nan (ts_mul a b);
  add_not_nan_l :
    forall a b : T, is_finite a -> not_nan b -> not_nan (ts_add a b);
  add_not_nan_r :
    forall a b : T, not_nan a -> is_finite b -> not_nan (ts_add a b);
  mul_finite_l :
    forall a b : T,
      is_finite a -> (Rabs (value a) <= 1)%R -> is_finite b ->
      is_finite (ts_mul a b) /\
      (Rabs (value (ts_mul a b)) <= Rabs (value b))%R;
  mul_finite_r :
    forall a b : T,
      is_finite a -> is_finite b -> (Rabs (value b) <= 1)%R ->
      is_finite (ts_mul a b) /\
      (Rabs (value (ts_mul a b)) <= Rabs (value a))%R;
  add_finite :
    forall (n : nat) (a b : T),
      counts n ->
      is_finite a -> (Rabs (value a) <= INR n)%R ->
      is_finite b -> (Rabs (value b) <= 1)%R ->
      is_finite (ts_add a b) /\
      (Rabs (value (ts_add a b)) <= INR (S n))%R;
  sigmoid_finite :
    forall a : T,
      not_nan a ->
      is_finite (ts_sigmoid a) /\ (0 <= value (ts_sigmoid a) <= 1)%R;
  tanh_finite :
    forall a : T,
      not_nan a ->
      is_finite (ts_tanh a) /\ (Rabs (value (ts_tanh a)) <= 1)%R;
  tanh_on_4 :
    forall a : T,
      is_finite a -> (Rabs (value a) <= 4)%R ->
      (Rabs (value (ts_tanh a)) <= tanh_bound)%R;
  tanh_bound_below_1 : (tanh_bound < 1)%R;
  counts_4 : forall n : nat, n < 4 -> counts n
}.
Arguments TensorLaws T {_ _}.

(** Exact real arithmetic: every scalar is finite. *)
#[export] Instance ROrder : TensorOrder R := {
  is_finite := fun _ => True;
  not_nan := fun _ => True;
  value := fun x => x;
  tanh_bound := tanh 4;
  counts := fun _ => True
}.

(** Reals and a NaN, [None]: an operation on a NaN gives a NaN.  Rounding
    and the infinities are left out. *)
Definition nan_lift2 (f : R -> R -> R) (a b : option R) : option R :=
  match a, b with
  | Some x, Some y => Some (f x y)
  | _, _ => None
  end.

#[export] Instance NaNScalar : TensorScalar (option R) := {
  ts_zero := Some 0%R;
  ts_add := nan_lift2 Rplus;
  ts_mul := nan_lift2 Rmult;
  ts_sigmoid := option_map sigmoid;
  ts_tanh := option_map tanh
}.

#[export] Instance NaNOrder : TensorOrder (option R) := {
  is_finite := fun a => a <> None;
  not_nan := fun a => a <> None;
  value := fun a => match a with Some x => x | None => 0%R end;
  tanh_bound := tanh 4;
  counts := fun _ => True
}.

Module Finite.
Section Cell.
Context {T : Type} `{TensorOrder T}.

(** The eleven parameters [lstm_unit] reads are finite. *)
Definition params (self : LSTM.params T) : Prop :=
  is_finite (LSTM.wlr1 self) /\ is_finite (LSTM.wlr2 self) /\
  is_finite (LSTM.blr1 self) /\
  is_finite (LSTM.wpr1 self) /\ is_finite (LSTM.wpr2 self) /\
  is_finite (LSTM.bpr1 self) /\
  is_finite (LSTM.wp1 self) /\ is_finite (LSTM.wp2 self) /\
  is_finite (LSTM.bp1 self) /\
  is_finite (LSTM.wo1 self) /\ is_finite (LSTM.wo2 self).

(** A memory state with a finite long memory of magnitude at most [n] and
    a finite short memory of magnitude at most 1. *)
Definition memory (n : nat) (state : T * T) : Prop :=
  is_finite (fst state) /\ (Rabs (value (fst state)) <= INR n)%R /\
  is_finite (snd state) /\ (Rabs (value (snd state)) <= 1)%R.

End Cell.
End Finite.

(** ** The example LSTM over the scalars with a NaN *)

Module NaNExample.
Local Open Scope R_scope.

Definition of_reals (p : LSTM.params R) : LSTM.params (option R) :=
  {| LSTM.wlr1 := Some (LSTM.wlr1 p); LSTM.wlr2 := Some (LSTM.wlr2 p);
     LSTM.blr1 := Some (LSTM.blr1 p);
     LSTM.wpr1 := Some (LSTM.wpr1 p); LSTM.wpr2 := Some (LSTM.wpr2 p);
     LSTM.bpr1 := Some (LSTM.bpr1 p);
     LSTM.wp1 := Some (LSTM.wp1 p); LSTM.wp2 := Some (LSTM.wp2 p);
     LSTM.bp1 := Some (LSTM.bp1 p);
     LSTM.wo1 := Some (LSTM.wo1 p); LSTM.wo2 := Some (LSTM.wo2 p);
     LSTM.bo1 := Some (LSTM.bo1 p) |}.

Definition lstm : LSTM.params (option R) := of_reals Example.lstm.

Definition company_a : list (option R) := map Some Example.company_a.

(** The input of company A with a NaN on the first day. *)
Definition nan_first_day : list (option R) :=
  [None; Some 0.5; Some 0.25; Some 1].

End NaNExample.

(** ** The generation loop as the specification words it *)

Module Generation.

(** [tok] is the first index of the greatest entry of [row]. *)
Definition first_maximum (row : vector) (tok : nat) : Prop :=
  exists v : R,
    nth_error row tok = Some v /\
    forall (j : nat) (x : R),
      nth_error row j = Some x ->
      (x <= v)%R /\ (j < tok -> (x < v)%R).

(** One forward pass on [input] returns logits whose last row has its
    first greatest entry at [tok]. *)
Definition next_token (model : DecoderTransformer.t) (input : list nat)
    (tok : nat) : Prop :=
  exists predictions : matrix,
    DecoderTransformer.forward model input = Some predictions /\
    predictions <> [] /\
    first_maximum (last predictions []) tok.

(** The id of <EOS>. *)
Definition end_of_sequence : nat := 4.

(** [next] is [input] grown by its next token, which is not <EOS>. *)
Definition extends (model : DecoderTransformer.t) (input next : list nat)
  : Prop :=
  exists tok : nat,
    next_token model input tok /\
    tok <> end_of_sequence /\
    next = input ++ [tok].

End Generation.

(** * Properties of the LSTM cell *)

Section LSTMStructure.
Context {T : Type} `{TensorScalar T}.

(** C3: one [lstm_unit] step is the update of the specification, with
    wlr1, wlr2, blr1 as the forget gate, wpr1, wpr2, bpr1 as the candidate
    gate, wp1, wp2, bp1 as the candidate value and wo1, wo2 (and no bias)
    as the output gate; written out, it returns the pair (L', S') with
    L' = L*sigmoid(S*wlr1 + x*wlr2 + blr1)
         + sigmoid(S*wpr1 + x*wpr2 + bpr1) * tanh(S*wp1 + x*wp2 + bp1)
    and S' = tanh(L') * sigmoid(S*wo1 + x*wo2). *)
Theorem lstm_unit_computes_spec_update :
  forall (self : LSTM.params T) (x L S : T),
    LSTM.lstm_unit self x L S = Spec.update (Spec.gates_of self) x L S /\
    LSTM.lstm_unit self x L S =
      (let L' :=
         ts_add
           (ts_mul L
              (ts_sigmoid
                 (ts_add (ts_add (ts_mul S (LSTM.wlr1 self))
                                 (ts_mul x (LSTM.wlr2 self)))
                         (LSTM.blr1 self))))
           (ts_mul
              (ts_sigmoid
                 (ts_add (ts_add (ts_mul S (LSTM.wpr1 self))
                                 (ts_mul x (LSTM.wpr2 self)))
                         (LSTM.bpr1 self)))
              (ts_tanh
                 (ts_add (ts_add (ts_mul S (LSTM.wp1 self))
                                 (ts_mul x (LSTM.wp2 self)))
                         (LSTM.bp1 self)))) in
       (L',
        ts_mul (ts_tanh L')
          (ts_sigmoid (ts_add (ts_mul S (LSTM.wo1 self))
                              (ts_mul x (LSTM.wo2 self)))))).
Proof.
  intros self x L S; split; reflexivity.
Qed.

Lemma forward_cons4 (self : LSTM.params T) (a b c d : T) (rest : list T) :
  LSTM.forward self (a :: b :: c :: d :: rest) =
  Some (snd (fold_left (LSTM.step self) [a; b; c; d] (ts_zero, ts_zero))).
Proof.
  unfold LSTM.forward, LSTM.step; simpl.
  repeat match goal with
         | |- context [LSTM.lstm_unit ?p ?x ?l ?s] =>
             let u := fresh "u" in
             remember (LSTM.lstm_unit p x l s) as u;
             destruct u; simpl
         end.
  reflexivity.
Qed.

Lemma length4_inv (X : list T) :
  length X = 4 -> exists a b c d, X = [a; b; c; d].
Proof.
  destruct X as [|a [|b [|c [|d [|e X]]]]]; simpl; try discriminate.
  intros _; now exists a, b, c, d.
Qed.

(** C4: on a 4-element input the forward pass starts from the memory
    (0, 0), applies the cell update once per element, in input order, and
    returns the short memory of the last state. *)
Theorem forward_is_four_updates :
  forall (self : LSTM.params T) (X : list T),
    length X = 4 ->
    LSTM.forward self X =
    Some (snd (fold_left (LSTM.step self) X (ts_zero, ts_zero))).
Proof.
  intros self X HX.
  destruct (length4_inv X HX) as (a & b & c & d & ->).
  apply forward_cons4.
Qed.

Lemma forward_short (self : LSTM.params T) (X : list T) :
  length X < 4 -> LSTM.forward self X = None.
Proof.
  destruct X as [|a [|b [|c [|d X]]]]; simpl; intros HX;
    try reflexivity; lia.
Qed.

(** C9: the forward pass fails exactly on inputs of fewer than 4 elements,
    and on longer inputs the result is that of the first 4 elements:
    whatever follows index 3 does not affect it. *)
Theorem forward_reads_first_four :
  forall (self : LSTM.params T) (X : list T),
    (LSTM.forward self X = None <-> length X < 4) /\
    (4 <= length X ->
     LSTM.forward self X = LSTM.forward self (firstn 4 X) /\
     forall rest : list T,
       LSTM.forward self (firstn 4 X ++ rest) = LSTM.forward self X).
Proof.
  intros self X; split.
  - split; [|apply forward_short].
    destruct X as [|a [|b [|c [|d X]]]]; simpl; try lia.
    rewrite forward_cons4; discriminate.
  - intros HX.
    destruct X as [|a [|b [|c [|d X]]]]; simpl in HX; try lia.
    split; [|intros rest]; simpl; now rewrite !forward_cons4.
Qed.

Lemma lstm_unit_with_bo1 (self : LSTM.params T) (b x L S : T) :
  LSTM.lstm_unit (LSTM.with_bo1 self b) x L S = LSTM.lstm_unit self x L S.
Proof. reflexivity. Qed.

(** C10: the forward pass does not depend on bo1: with any two values for
    it, and everything else equal, the result is the same; so is every
    cell update.  (Every parameter record is [with_bo1] of itself at its
    own bo1, so this covers any two records that differ in bo1 only.) *)
Theorem forward_independent_of_bo1 :
  forall (self : LSTM.params T) (b b' : T) (X : list T),
    LSTM.forward (LSTM.with_bo1 self b) X =
    LSTM.forward (LSTM.with_bo1 self b') X /\
    (forall x L S : T,
       LSTM.lstm_unit (LSTM.with_bo1 self b) x L S =
       LSTM.lstm_unit (LSTM.with_bo1 self b') x L S) /\
    LSTM.with_bo1 self (LSTM.bo1 self) = self.
Proof.
  intros self b b' X.
  split; [reflexivity|].
  split; [intros x L S; now rewrite !lstm_unit_with_bo1|].
  destruct self; reflexivity.
Qed.
End LSTMStructure.

(** * The gates in real arithmetic *)

Section LSTMRange.
Local Open Scope R_scope.

Lemma div_below_one (a b : R) : 0 < b -> a < b -> a / b < 1.
Proof.
  intros Hb Hab.
  apply Rmult_lt_reg_r with b; [exact Hb|].
  replace (a / b * b) with a by (field; lra).
  lra.
Qed.

Lemma div_above_minus_one (a b : R) : 0 < b -> - b < a -> -1 < a / b.
Proof.
  intros Hb Hab.
  apply Rmult_lt_reg_r with b; [exact Hb|].
  replace (a / b * b) with a by (field; lra).
  lra.
Qed.

Lemma sigmoid_range (x : R) : 0 < sigmoid x < 1.
Proof.
  unfold sigmoid.
  pose proof (exp_pos (- x)) as He.
  assert (Hd : 0 < 1 + exp (- x)) by lra.
  split.
  - apply Rdiv_lt_0_compat; lra.
  - apply div_below_one; lra.
Qed.

Lemma tanh_range (x : R) : -1 < tanh x < 1.
Proof.
  unfold tanh, sinh, cosh.
  pose proof (exp_pos x) as Ha.
  pose proof (exp_pos (- x)) as Hb.
  set (a := exp x) in *; set (b := exp (- x)) in *.
  assert (Hd : 0 < (a + b) / 2) by lra.
  split.
  - apply div_above_minus_one; lra.
  - apply div_below_one; lra.
Qed.

Lemma tanh_increasing (x y : R) : x < y -> tanh x < tanh y.
Proof.
  intros Hxy; unfold tanh, sinh, cosh.
  pose proof (exp_pos x) as Ha.
  pose proof (exp_pos (- x)) as Hb.
  pose proof (exp_pos y) as Ha'.
  pose proof (exp_pos (- y)) as Hb'.
  pose proof (exp_increasing x y Hxy) as Hi.
  pose proof (exp_increasing (- y) (- x) ltac:(lra)) as Hi'.
  set (a := exp x) in *; set (b := exp (- x)) in *.
  set (a' := exp y) in *; set (b' := exp (- y)) in *.
  replace ((a - b) / 2 / ((a + b) / 2)) with ((a - b) / (a + b)) by (field; lra).
  replace ((a' - b') / 2 / ((a' + b') / 2)) with ((a' - b') / (a' + b'))
    by (field; lra).
  apply Rmult_lt_reg_r with ((a + b) * (a' + b')); [nra|].
  replace ((a - b) / (a + b) * ((a + b) * (a' + b')))
    with ((a - b) * (a' + b')) by (field; lra).
  replace ((a' - b') / (a' + b') * ((a + b) * (a' + b')))
    with ((a' - b') * (a + b)) by (field; lra).
  nra.
Qed.

Lemma tanh_opp (x : R) : tanh (- x) = - tanh x.
Proof.
  unfold tanh, sinh, cosh; rewrite Ropp_involutive.
  pose proof (exp_pos x); pose proof (exp_pos (- x)).
  field; lra.
Qed.

Lemma tanh_abs_le (x c : R) : Rabs x <= c -> Rabs (tanh x) <= tanh c.
Proof.
  intros Hx.
  assert (Hlo : - c <= x) by (pose proof (Rle_abs (- x)); rewrite Rabs_Ropp in *; lra).
  assert (Hhi : x <= c) by (pose proof (Rle_abs x); lra).
  assert (H1 : tanh x <= tanh c).
  { destruct Hhi as [Hlt| ->]; [left; now apply tanh_increasing | right; reflexivity]. }
  assert (H2 : - tanh c <= tanh x).
  { rewrite <- tanh_opp.
    destruct Hlo as [Hlt| <-]; [left; now apply tanh_increasing | right; reflexivity]. }
  apply Rabs_le; lra.
Qed.

Lemma abs_mul_unit (a b : R) : Rabs a <= 1 -> Rabs (a * b) <= Rabs b.
Proof.
  intros Ha; rewrite Rabs_mult.
  pose proof (Rabs_pos a); pose proof (Rabs_pos b); nra.
Qed.

Lemma abs_add_unit (n : nat) (a b : R) :
  Rabs a <= INR n -> Rabs b <= 1 -> Rabs (a + b) <= INR (S n).
Proof.
  intros Ha Hb; rewrite S_INR.
  pose proof (Rabs_triang a b); lra.
Qed.

(** Exact real arithmetic has the laws, with tanh 4 as the bound. *)
#[export] Instance RLaws : TensorLaws R.
Proof.
  constructor; cbn.
  - exact I.
  - reflexivity.
  - intros; exact I.
  - intros; exact I.
  - intros; exact I.
  - intros; exact I.
  - intros a b _ Ha _; split; [exact I | now apply abs_mul_unit].
  - intros a b _ _ Hb; split; [exact I|].
    rewrite Rmult_comm; now apply abs_mul_unit.
  - intros n a b _ _ Ha _ Hb; split; [exact I | now apply abs_add_unit].
  - intros a _; split; [exact I|].
    pose proof (sigmoid_range a); lra.
  - intros a _; split; [exact I|].
    pose proof (tanh_range a); apply Rabs_le; lra.
  - intros a _ Ha; now apply tanh_abs_le.
  - apply tanh_range.
  - intros; exact I.
Qed.

(** So has the arithmetic with a NaN: the finite scalars are the reals. *)
#[export] Instance NaNLaws : TensorLaws (option R).
Proof.
  constructor; cbn.
  - discriminate.
  - reflexivity.
  - intros a Ha; exact Ha.
  - intros [a|] [b|] Ha Hb; cbn; congruence.
  - intros [a|] [b|] Ha Hb; cbn; congruence.
  - intros [a|] [b|] Ha Hb; cbn; congruence.
  - intros [a|] [b|] Hfa Ha Hfb; cbn; try congruence.
    split; [discriminate | now apply abs_mul_unit].
  - intros [a|] [b|] Hfa Hfb Hb; cbn; try congruence.
    split; [discriminate|].
    rewrite Rmult_comm; now apply abs_mul_unit.
  - intros n [a|] [b|] _ Hfa Ha Hfb Hb; cbn; try congruence.
    split; [discriminate | now apply abs_add_unit].
  - intros [a|] Ha; cbn; try congruence.
    split; [discriminate|].
    pose proof (sigmoid_range a); lra.
  - intros [a|] Ha; cbn; try congruence.
    split; [discriminate|].
    pose proof (tanh_range a); apply Rabs_le; lra.
  - intros [a|] Hfa Ha; cbn; try congruence.
    now apply tanh_abs_le.
  - apply tanh_range.
  - intros; exact I.
Qed.
End LSTMRange.

(** * The memories of the cell, for finite parameters and inputs *)

Section LSTMMemory.
Context {T : Type} {scalar : TensorScalar T} {order : TensorOrder T}
        {laws : TensorLaws T}.
Local Open Scope R_scope.

Lemma unit_interval_abs (a : R) : 0 <= a <= 1 -> Rabs a <= 1.
Proof. intros Ha; apply Rabs_le; lra. Qed.

(** What a gate is applied to is never NaN. *)
Lemma gate_input_not_nan (S x w1 w2 : T) :
  is_finite S -> Rabs (value S) <= 1 ->
  is_finite x -> is_finite w1 -> is_finite w2 ->
  not_nan (ts_add (ts_mul S w1) (ts_mul x w2)).
Proof.
  intros HS HS1 Hx Hw1 Hw2.
  apply add_not_nan_l.
  - now apply (@mul_finite_l T scalar order laws S w1).
  - now apply mul_not_nan.
Qed.

Lemma biased_gate_input_not_nan (S x w1 w2 b : T) :
  is_finite S -> Rabs (value S) <= 1 ->
  is_finite x -> is_finite w1 -> is_finite w2 -> is_finite b ->
  not_nan (ts_add (ts_add (ts_mul S w1) (ts_mul x w2)) b).
Proof.
  intros HS HS1 Hx Hw1 Hw2 Hb.
  apply add_not_nan_r; [|exact Hb].
  now apply gate_input_not_nan.
Qed.

(** One update keeps the memories finite, moves the bound on the long
    memory by 1 and, while that bound is at most 4, keeps the short memory
    within the bound of tanh. *)
Lemma step_memory (self : LSTM.params T) (x : T) (n : nat) (state : T * T) :
  Finite.params self -> is_finite x -> counts n ->
  Finite.memory n state ->
  Finite.memory (S n) (LSTM.step self state x) /\
  ((n < 4)%nat ->
   Rabs (value (snd (LSTM.step self state x))) <= tanh_bound).
Proof.
  intros (Hwlr1 & Hwlr2 & Hblr1 & Hwpr1 & Hwpr2 & Hbpr1 &
          Hwp1 & Hwp2 & Hbp1 & Hwo1 & Hwo2) Hx Hn (HL & HLn & HS & HS1).
  destruct state as [L S0]; cbn [fst snd] in *.
  unfold LSTM.step, LSTM.lstm_unit, Finite.memory; cbn [fst snd].
  destruct (@sigmoid_finite T scalar order laws _
              (biased_gate_input_not_nan _ _ _ _ _ HS HS1 Hx Hwlr1 Hwlr2 Hblr1))
    as (Hf & Hf1).
  destruct (@sigmoid_finite T scalar order laws _
              (biased_gate_input_not_nan _ _ _ _ _ HS HS1 Hx Hwpr1 Hwpr2 Hbpr1))
    as (Hc & Hc1).
  destruct (@tanh_finite T scalar order laws _
              (biased_gate_input_not_nan _ _ _ _ _ HS HS1 Hx Hwp1 Hwp2 Hbp1))
    as (Hv & Hv1).
  destruct (@sigmoid_finite T scalar order laws _ (gate_input_not_nan _ _ _ _ HS HS1 Hx Hwo1 Hwo2))
    as (Ho & Ho1).
  apply unit_interval_abs in Hf1, Hc1, Ho1.
  set (f := ts_sigmoid _) in Hf, Hf1 |- *.
  set (c := ts_sigmoid _) in Hc, Hc1 |- *.
  set (v := ts_tanh _) in Hv, Hv1 |- *.
  set (o := ts_sigmoid _) in Ho, Ho1 |- *.
  destruct (@mul_finite_r T scalar order laws L f HL Hf Hf1) as (HLf & HLf1).
  destruct (@mul_finite_l T scalar order laws c v Hc Hc1 Hv) as (Hcv & Hcv1).
  assert (HLfn : Rabs (value (ts_mul L f)) <= INR n) by lra.
  assert (Hcv2 : Rabs (value (ts_mul c v)) <= 1) by lra.
  destruct (@add_finite T scalar order laws n (ts_mul L f) (ts_mul c v)
              Hn HLf HLfn Hcv Hcv2)
    as (HL' & HL'n).
  set (L' := ts_add (ts_mul L f) (ts_mul c v)) in HL', HL'n |- *.
  destruct (@tanh_finite T scalar order laws L'
              (@finite_not_nan T scalar order laws L' HL')) as (Ht & Ht1).
  destruct (@mul_finite_r T scalar order laws (ts_tanh L') o Ht Ho Ho1) as (HS' & HS'1).
  split.
  - split; [exact HL'|].
    split; [exact HL'n|].
    split; [exact HS' | lra].
  - intros Hn4.
    assert (H4 : Rabs (value L') <= 4).
    { apply Rle_trans with (INR (S n)); [exact HL'n|].
      apply (le_INR (S n) 4) in Hn4.
      simpl INR at 2 in Hn4; lra. }
    pose proof (@tanh_on_4 T scalar order laws L' HL' H4); lra.
Qed.

(** The memory [(0, 0)] the forward pass starts from. *)
Lemma initial_memory : Finite.memory 0 (ts_zero, ts_zero).
Proof.
  unfold Finite.memory; cbn [fst snd].
  rewrite zero_value, Rabs_R0; simpl.
  split; [apply zero_finite|].
  split; [lra|].
  split; [apply zero_finite | lra].
Qed.

Lemma fold_memory (self : LSTM.params T) (X : list T) :
  Finite.params self -> Forall is_finite X ->
  forall (n : nat) (state : T * T),
    (forall k : nat, (n <= k < n + length X)%nat -> counts k) ->
    Finite.memory n state ->
    Finite.memory (n + length X) (fold_left (LSTM.step self) X state).
Proof.
  intros Hself HX; induction HX as [|x X Hx HX IH]; intros n state Hc Hm.
  - simpl; now rewrite Nat.add_0_r.
  - cbn [fold_left length].
    replace (n + S (length X))%nat with (S n + length X)%nat by lia.
    apply IH.
    + intros k Hk; apply Hc; simpl; lia.
    + apply step_memory; try assumption.
      apply Hc; simpl; lia.
Qed.

(** X1: from the memory (0, 0), for finite parameters and a finite input
    of any length n that the scalars can count, the memories after the n
    updates are finite, the long memory is at most n in absolute value and
    the short memory at most 1. *)
Theorem memory_stays_bounded :
  forall (self : LSTM.params T) (X : list T),
    Finite.params self ->
    Forall is_finite X ->
    (forall k : nat, (k < length X)%nat -> counts k) ->
    is_finite (fst (fold_left (LSTM.step self) X (ts_zero, ts_zero))) /\
    Rabs (value (fst (fold_left (LSTM.step self) X (ts_zero, ts_zero))))
      <= INR (length X) /\
    is_finite (snd (fold_left (LSTM.step self) X (ts_zero, ts_zero))) /\
    Rabs (value (snd (fold_left (LSTM.step self) X (ts_zero, ts_zero))))
      <= 1.
Proof.
  intros self X Hself HX Hc.
  apply (@fold_memory self X Hself HX 0%nat); [|apply initial_memory].
  intros k Hk; apply Hc; lia.
Qed.

Lemma four_updates_within_bound (self : LSTM.params T) (a b c d : T) :
  Finite.params self ->
  is_finite a -> is_finite b -> is_finite c -> is_finite d ->
  is_finite (snd (fold_left (LSTM.step self) [a; b; c; d] (ts_zero, ts_zero))) /\
  Rabs (value (snd (fold_left (LSTM.step self) [a; b; c; d]
                      (ts_zero, ts_zero)))) <= tanh_bound.
Proof.
  intros Hself Ha Hb Hc Hd.
  set (st := fold_left (LSTM.step self) [a; b; c] (ts_zero, ts_zero)).
  change (fold_left (LSTM.step self) [a; b; c; d] (ts_zero, ts_zero))
    with (LSTM.step self st d).
  assert (Hst : Finite.memory 3 st).
  { apply (@fold_memory self [a; b; c] Hself) with (n := 0%nat).
    - repeat constructor; assumption.
    - intros k Hk; apply counts_4; simpl in Hk; lia.
    - apply initial_memory. }
  assert (H3 : counts 3) by (apply counts_4; lia).
  destruct (@step_memory self d 3%nat st Hself Hd H3 Hst) as ((_ & _ & HS & _) & Hbound).
  split; [exact HS | apply Hbound; lia].
Qed.

(** C8: for parameters and a 4-element input that are finite, neither NaN
    nor infinite, the forward pass returns a finite prediction whose
    absolute value is at most the bound of tanh on [-4, 4], which is below
    1: the prediction lies strictly between -1 and 1 and is never the
    label 1. *)
Theorem prediction_strictly_between :
  forall (self : LSTM.params T) (X : list T),
    Finite.params self ->
    Forall is_finite X ->
    length X = 4%nat ->
    exists y : T,
      LSTM.forward self X = Some y /\
      is_finite y /\
      Rabs (value y) <= tanh_bound /\
      -1 < value y < 1 /\
      value y <> 1.
Proof.
  intros self X Hself HX Hlen.
  destruct (length4_inv X Hlen) as (a & b & c & d & ->).
  rewrite forward_cons4.
  eexists; split; [reflexivity|].
  inversion_clear HX as [|? ? Ha HX1].
  inversion_clear HX1 as [|? ? Hb HX2].
  inversion_clear HX2 as [|? ? Hc HX3].
  inversion_clear HX3 as [|? ? Hd _].
  destruct (@four_updates_within_bound self a b c d Hself Ha Hb Hc Hd) as (Hfin & Hbound).
  pose proof tanh_bound_below_1 as H1.
  split; [exact Hfin|].
  split; [exact Hbound|].
  match type of Hbound with
  | Rabs ?v <= _ =>
      pose proof (Rle_abs v) as Hhi;
      pose proof (Rle_abs (- v)) as Hlo;
      rewrite Rabs_Ropp in Hlo
  end.
  split; lra.
Qed.
End LSTMMemory.

(** * Facts about the tensor operations *)

Section TorchFacts.
Import Torch.
Local Open Scope R_scope.

Lemma bind_Some {A B : Type} (m : option A) (k : A -> option B) (b : B) :
  (x <- m ;; k x) = Some b -> exists a, m = Some a /\ k a = Some b.
Proof.
  destruct m as [a|]; simpl; [|discriminate].
  intros Hk; now exists a.
Qed.

Lemma traverse_Forall2 {A B : Type} (f : A -> option B) (l : list A) (l' : list B) :
  traverse f l = Some l' <-> Forall2 (fun a b => f a = Some b) l l'.
Proof.
  revert l'; induction l as [|a l IH]; intros l'; simpl.
  - split.
    + intros [= <-]; constructor.
    + intros Hl; inversion Hl; reflexivity.
  - split.
    + intros Ht.
      apply bind_Some in Ht as (b & Hb & Ht).
      apply bind_Some in Ht as (bs & Hbs & [= <-]).
      constructor; [exact Hb | now apply IH].
    + intros Hl; inversion Hl as [|a' b l1 bs Hb Hbs]; subst.
      rewrite Hb; simpl.
      apply IH in Hbs; rewrite Hbs; reflexivity.
Qed.

Lemma traverse_total {A B : Type} (g : A -> B) (l : list A) :
  traverse (fun a => Some (g a)) l = Some (map g l).
Proof.
  induction l as [|a l IH]; simpl; [reflexivity|].
  rewrite IH; reflexivity.
Qed.

Lemma traverse_length {A B : Type} (f : A -> option B) (l : list A) (l' : list B) :
  traverse f l = Some l' -> length l' = length l.
Proof.
  intros Ht; apply traverse_Forall2 in Ht.
  symmetry; eapply Forall2_length; eassumption.
Qed.

Lemma traverse_In {A B : Type} (f : A -> option B) (l : list A) (l' : list B) (b : B) :
  traverse f l = Some l' -> In b l' -> exists a, In a l /\ f a = Some b.
Proof.
  intros Ht; apply traverse_Forall2 in Ht.
  induction Ht as [|a b' l1 l2 Hab _ IH]; simpl; [tauto|].
  intros [<-|Hin].
  - exists a; auto.
  - destruct (IH Hin) as (a' & Ha' & Hf); exists a'; auto.
Qed.

Lemma traverse_nth_error {A B : Type} (f : A -> option B) (l : list A) (l' : list B)
    (i : nat) (a : A) :
  traverse f l = Some l' -> nth_error l i = Some a ->
  exists b, nth_error l' i = Some b /\ f a = Some b.
Proof.
  intros Ht; apply traverse_Forall2 in Ht.
  revert i; induction Ht as [|a' b' l1 l2 Hab _ IH]; intros [|i]; simpl;
    try discriminate.
  - intros [= ->]; exists b'; auto.
  - apply IH.
Qed.

Lemma traverse_defined {A B : Type} (f : A -> option B) (l : list A) :
  (forall a, In a l -> f a <> None) -> traverse f l <> None.
Proof.
  induction l as [|a l IH]; simpl; intros Hf; [discriminate|].
  destruct (f a) as [b|] eqn:Hfa; simpl.
  - destruct (traverse f l) as [bs|] eqn:Hl; simpl; [discriminate|].
    exfalso; apply IH; [|reflexivity].
    intros a' Ha'; apply Hf; now right.
  - exfalso; apply (Hf a); [now left | exact Hfa].
Qed.

(** With equal sizes, broadcasting is the pointwise operation. *)
Lemma zip_broadcast_same {A B C : Type} (f : A -> B -> option C)
    (u : list A) (v : list B) :
  length u = length v ->
  zip_broadcast f u v = traverse (fun p => f (fst p) (snd p)) (combine u v).
Proof.
  intros Huv; unfold zip_broadcast.
  now rewrite (proj2 (Nat.eqb_eq _ _) Huv).
Qed.

Lemma masked_fill_same_shape (t : matrix) (mask : list (list bool)) (value : R)
    (n : nat) (t' : matrix) :
  length t = length mask ->
  Forall (fun row => length row = n) t ->
  Forall (fun row => length row = n) mask ->
  masked_fill t mask value = Some t' ->
  length t' = length t /\ Forall (fun row => length row = n) t'.
Proof.
  intros Hlen Ht Hm; unfold masked_fill.
  rewrite zip_broadcast_same by exact Hlen.
  intros Hr.
  pose proof (traverse_length _ _ Hr) as Hl.
  rewrite length_combine, <- Hlen, Nat.min_id in Hl.
  split; [exact Hl|].
  apply Forall_forall; intros row' Hin.
  destruct (traverse_In _ _ row' Hr Hin) as ([row mrow] & Hp & Hrow).
  simpl in Hrow.
  pose proof (in_combine_l _ _ _ _ Hp) as Hin_t.
  pose proof (in_combine_r _ _ _ _ Hp) as Hin_m.
  rewrite Forall_forall in Ht, Hm.
  specialize (Ht _ Hin_t); specialize (Hm _ Hin_m).
  rewrite zip_broadcast_same in Hrow by congruence.
  apply traverse_length in Hrow.
  rewrite length_combine, Ht, Hm, Nat.min_id in Hrow.
  exact Hrow.
Qed.


Lemma sum_exp_pos (l : vector) : l <> [] -> 0 < sum (map exp l).
Proof.
  induction l as [|x l IH]; [congruence|].
  intros _; simpl.
  pose proof (exp_pos x) as Hx.
  destruct l as [|y l]; [simpl; lra|].
  assert (Hl : 0 < sum (map exp (y :: l))) by (apply IH; discriminate).
  lra.
Qed.


Lemma softmax_row_positive (row : vector) (w : R) :
  In w (softmax_row row) -> 0 < w.
Proof.
  unfold softmax_row; intros Hin.
  apply in_map_iff in Hin as (x & <- & Hx).
  apply Rdiv_lt_0_compat; [apply exp_pos|].
  apply sum_exp_pos; intros ->; contradiction.
Qed.

Lemma combine_seq_repeat {A B : Type} (f : nat * A -> B) (x : A) (n a : nat) :
  map f (combine (seq a n) (repeat x n)) = map (fun i => f (i, x)) (seq a n).
Proof.
  revert a; induction n as [|n IH]; intros a; simpl; [reflexivity|].
  now rewrite IH.
Qed.

(** The mask is true exactly above the diagonal. *)
Lemma causal_mask_entries (n : nat) :
  DecoderTransformer.causal_mask n =
  map (fun i => map (fun j => (i <? j)%nat) (seq 0 n)) (seq 0 n).
Proof.
  unfold DecoderTransformer.causal_mask, eq_zero, tril, ones.
  rewrite repeat_length, combine_seq_repeat, map_map.
  apply map_ext; intros i; cbn [fst snd].
  rewrite repeat_length, combine_seq_repeat, map_map.
  apply map_ext; intros j; cbn [fst snd].
  destruct (Nat.leb_spec j i) as [Hji|Hji].
  - destruct (Req_EM_T 1 0) as [H10|_]; [lra|].
    symmetry; apply Nat.ltb_ge; exact Hji.
  - destruct (Req_EM_T 0 0) as [_|H00]; [|lra].
    symmetry; apply Nat.ltb_lt; exact Hji.
Qed.

Lemma causal_mask_shape (n : nat) :
  length (DecoderTransformer.causal_mask n) = n /\
  Forall (fun row => length row = n) (DecoderTransformer.causal_mask n).
Proof.
  rewrite causal_mask_entries; split.
  - now rewrite length_map, length_seq.
  - apply Forall_forall; intros row Hin.
    apply in_map_iff in Hin as (i & <- & _).
    now rewrite length_map, length_seq.
Qed.
End TorchFacts.

(** * Attention weights *)

Section AttentionFacts.
Import Torch.
Local Open Scope R_scope.

Lemma matmul_transposed_shape (a b sims : matrix) :
  matmul_transposed a b = Some sims ->
  length sims = length a /\ Forall (fun row => length row = length b) sims.
Proof.
  unfold matmul_transposed; intros Hs; split.
  - eapply traverse_length; eassumption.
  - apply Forall_forall; intros row Hin.
    destruct (traverse_In _ _ row Hs Hin) as (a_i & _ & Hrow).
    eapply traverse_length; eassumption.
Qed.

Lemma linear_length (self : Linear) (x y : matrix) :
  linear self x = Some y -> length y = length x.
Proof. apply traverse_length. Qed.

(** What [forward] goes through: the weights are the softmax of some
    matrix of (scaled, possibly masked) similarities. *)
Lemma forward_locals_inv (self : Attention.t) (eq ek ev : matrix)
    (mask : option (list (list bool))) (P out : matrix) :
  Attention.forward_locals self eq ek ev mask = Some (P, out) ->
  exists q k sims scaled,
    linear (Attention.W_q self) eq = Some q /\
    linear (Attention.W_k self) ek = Some k /\
    matmul_transposed q k = Some sims /\
    match mask with
    | Some m =>
        masked_fill
          (map (map (fun s =>
                       s / sqrt (INR (length (weight (Attention.W_k self))))))
               sims)
          m Attention.mask_value
    | None =>
        Some (map (map (fun s =>
                          s / sqrt (INR (length (weight (Attention.W_k self))))))
                  sims)
    end = Some scaled /\
    P = softmax scaled.
Proof.
  unfold Attention.forward_locals; intros Hf.
  apply bind_Some in Hf as (q & Hq & Hf).
  apply bind_Some in Hf as (k & Hk & Hf).
  apply bind_Some in Hf as (v & Hv & Hf).
  apply bind_Some in Hf as (sims & Hsims & Hf).
  apply bind_Some in Hf as (scaled & Hscaled & Hf).
  apply bind_Some in Hf as (scores & Hscores & [= <- <-]).
  exists q, k, sims, scaled; auto.
Qed.

Lemma dot_defined (u v : vector) : length u = length v -> dot u v <> None.
Proof.
  intros Huv; unfold dot.
  rewrite (proj2 (Nat.eqb_eq _ _) Huv); discriminate.
Qed.

Lemma linear_defined (self : Linear) (x : matrix) (d : nat) :
  bias self = None ->
  rows_of_width d (weight self) -> rows_of_width d x ->
  exists y, linear self x = Some y /\
            length y = length x /\
            rows_of_width (length (weight self)) y.
Proof.
  intros Hb Hw Hx.
  unfold rows_of_width in *; rewrite Forall_forall in Hw, Hx.
  destruct (linear self x) as [y|] eqn:Hy.
  - exists y; split; [reflexivity|].
    split; [eapply linear_length; eassumption|].
    apply Forall_forall; intros row Hrow.
    destruct (traverse_In _ _ row Hy Hrow) as (xr & _ & Hxr).
    unfold linear_row in Hxr; rewrite Hb in Hxr.
    apply bind_Some in Hxr as (y' & Hy' & [= <-]).
    eapply traverse_length; eassumption.
  - exfalso; revert Hy; apply traverse_defined.
    intros xr Hxr; unfold linear_row; rewrite Hb.
    destruct (traverse (fun w => dot xr w) (weight self)) as [y'|] eqn:Hy';
      simpl; [discriminate|].
    exfalso; revert Hy'; apply traverse_defined.
    intros w Hin; apply dot_defined.
    rewrite (Hx _ Hxr), (Hw _ Hin); reflexivity.
Qed.

Lemma matmul_transposed_defined (a b : matrix) (d : nat) :
  rows_of_width d a -> rows_of_width d b -> matmul_transposed a b <> None.
Proof.
  unfold rows_of_width; rewrite !Forall_forall; intros Ha Hb.
  apply traverse_defined; intros a_i Hai.
  apply traverse_defined; intros b_j Hbj.
  apply dot_defined; rewrite (Ha _ Hai), (Hb _ Hbj); reflexivity.
Qed.

Lemma masked_fill_defined (t : matrix) (mask : list (list bool)) (value : R) (n : nat) :
  length t = length mask ->
  rows_of_width n t -> rows_of_width n mask ->
  masked_fill t mask value <> None.
Proof.
  unfold rows_of_width; rewrite !Forall_forall; intros Hlen Ht Hm.
  unfold masked_fill; rewrite zip_broadcast_same by exact Hlen.
  apply traverse_defined; intros [row mrow] Hp; simpl.
  rewrite zip_broadcast_same.
  - rewrite traverse_total; discriminate.
  - rewrite (Ht _ (in_combine_l _ _ _ _ Hp)), (Hm _ (in_combine_r _ _ _ _ Hp)).
    reflexivity.
Qed.

Lemma column_defined (b : matrix) (width c : nat) :
  rows_of_width width b -> (c < width)%nat ->
  exists col, column b c = Some col /\ length col = length b.
Proof.
  unfold rows_of_width; rewrite Forall_forall; intros Hb Hc.
  destruct (column b c) as [col|] eqn:Hcol.
  - exists col; split; [reflexivity|].
    eapply traverse_length; eassumption.
  - exfalso; revert Hcol; apply traverse_defined.
    intros row Hrow; apply nth_error_Some; rewrite (Hb _ Hrow); exact Hc.
Qed.

Lemma matmul_defined (a b : matrix) (width : nat) :
  rows_of_width width b -> rows_of_width (length b) a ->
  matmul a b width <> None.
Proof.
  intros Hb Ha; unfold matmul.
  assert (Hall : forallb (fun row => (length row =? width)%nat) b = true).
  { apply forallb_forall; intros row Hrow.
    unfold rows_of_width in Hb; rewrite Forall_forall in Hb.
    apply Nat.eqb_eq; now apply Hb. }
  rewrite Hall.
  unfold rows_of_width in Ha; rewrite Forall_forall in Ha.
  apply traverse_defined; intros a_i Hai.
  apply traverse_defined; intros c Hc.
  apply in_seq in Hc.
  destruct (@column_defined b width c Hb) as (col & Hcol & Hlen); [lia|].
  rewrite Hcol; simpl.
  apply dot_defined; rewrite (Ha _ Hai), Hlen; reflexivity.
Qed.

(** Self-attention over encodings of the width the three bias-free maps
    expect returns, without a mask and with the causal mask. *)
Lemma self_attention_returns (self : Attention.t) (x : matrix) (d : nat)
    (mask : option (list (list bool))) :
  bias (Attention.W_q self) = None ->
  bias (Attention.W_k self) = None ->
  bias (Attention.W_v self) = None ->
  rows_of_width d (weight (Attention.W_q self)) ->
  rows_of_width d (weight (Attention.W_k self)) ->
  rows_of_width d (weight (Attention.W_v self)) ->
  length (weight (Attention.W_q self)) = length (weight (Attention.W_k self)) ->
  rows_of_width d x ->
  mask = None \/ mask = Some (DecoderTransformer.causal_mask (length x)) ->
  Attention.forward_locals self x x x mask <> None.
Proof.
  intros Hbq Hbk Hbv Hwq Hwk Hwv Hqk Hx Hmask.
  destruct (@linear_defined (Attention.W_q self) x d Hbq Hwq Hx)
    as (q & Hq & Hlq & Hrq).
  destruct (@linear_defined (Attention.W_k self) x d Hbk Hwk Hx)
    as (k & Hk & Hlk & Hrk).
  destruct (@linear_defined (Attention.W_v self) x d Hbv Hwv Hx)
    as (v & Hv & Hlv & Hrv).
  unfold Attention.forward_locals.
  rewrite Hq, Hk, Hv; simpl bind.
  rewrite Hqk in Hrq.
  destruct (matmul_transposed q k) as [sims|] eqn:Hsims;
    [|now apply (@matmul_transposed_defined q k _ Hrq Hrk) in Hsims].
  simpl bind.
  destruct (matmul_transposed_shape _ _ Hsims) as (Hls & Hrs).
  set (scale := map (map (fun s : R => s / _)) sims).
  assert (Hscale : length scale = length x /\ rows_of_width (length x) scale).
  { subst scale; split; [rewrite length_map; congruence|].
    apply Forall_forall; intros row Hin.
    apply in_map_iff in Hin as (r & <- & Hr).
    rewrite length_map.
    rewrite Forall_forall in Hrs; rewrite (Hrs _ Hr); exact Hlk. }
  destruct Hscale as (Hlsc & Hrsc).
  assert (Hmasked : exists scaled,
             match mask with
             | Some m => masked_fill scale m Attention.mask_value
             | None => Some scale
             end = Some scaled /\
             length scaled = length x /\ rows_of_width (length x) scaled).
  { destruct Hmask as [-> | ->].
    - exists scale; auto.
    - destruct (causal_mask_shape (length x)) as (Hml & Hmr).
      destruct (masked_fill scale (DecoderTransformer.causal_mask (length x))
                  Attention.mask_value) as [scaled|] eqn:Hfill.
      + exists scaled; split; [reflexivity|].
        destruct (@masked_fill_same_shape scale _ _ (length x) scaled
                    (eq_trans Hlsc (eq_sym Hml)) Hrsc Hmr Hfill) as (Hl & Hr).
        split; [congruence | exact Hr].
      + exfalso; revert Hfill.
        apply masked_fill_defined with (n := length x); auto; congruence. }
  destruct Hmasked as (scaled & -> & Hlscaled & Hrscaled); simpl bind.
  destruct (matmul (softmax scaled) v (length (weight (Attention.W_v self))))
    as [scores|] eqn:Hscores; [simpl; discriminate|].
  exfalso; revert Hscores; apply matmul_defined; [exact Hrv|].
  apply Forall_forall; intros row Hin.
  apply in_map_iff in Hin as (r & <- & Hr).
  unfold softmax_row; rewrite length_map.
  unfold rows_of_width in Hrscaled; rewrite Forall_forall in Hrscaled.
  rewrite (Hrscaled _ Hr); congruence.
Qed.
End AttentionFacts.

(** * The causal mask and the future positions *)

Section MaskedPositions.
Import Torch.
Local Open Scope R_scope.

Lemma mask_value_pos : 0 < Attention.mask_value.
Proof. unfold Attention.mask_value; lra. Qed.

(** No attention weight is zero, masked or not. *)
Lemma attention_weights_positive (self : Attention.t) (eq ek ev : matrix)
    (mask : option (list (list bool))) (P out : matrix) (row : vector) (w : R) :
  Attention.forward_locals self eq ek ev mask = Some (P, out) ->
  In row P -> In w row -> 0 < w.
Proof.
  intros Hf Hrow Hw.
  destruct (forward_locals_inv _ _ _ _ _ Hf)
    as (q & k & sims & scaled & _ & _ & _ & _ & ->).
  apply in_map_iff in Hrow as (r & <- & _).
  eapply softmax_row_positive; eassumption.
Qed.

Ltac name_transcendentals :=
  repeat match goal with
         | H : context [exp ?x] |- _ =>
             let e := fresh "e" in
             pose proof (exp_pos x);
             set (e := exp x) in *; clearbody e
         | H : context [sin ?x] |- _ =>
             let s := fresh "s" in set (s := sin x) in *; clearbody s
         | H : context [cos ?x] |- _ =>
             let c := fresh "c" in set (c := cos x) in *; clearbody c
         end.

(** C2, at a sequence of length 2: with zero encodings at position 0 the
    weight from position 0 to the masked position 1 is
    exp(1e-9) / (1 + exp(1e-9)), more than one half. *)
Theorem masked_weight_exceeds_half :
  exists (attention_percents out : matrix) (row : vector) (w : R),
    Attention.forward_locals Example.attention
      [[0; 0]; [1; 1]] [[0; 0]; [1; 1]] [[0; 0]; [1; 1]]
      (Some (DecoderTransformer.causal_mask 2))
    = Some (attention_percents, out) /\
    nth_error attention_percents 0 = Some row /\
    nth_error row 1 = Some w /\
    w = exp 1e-9 / (1 + exp 1e-9) /\
    1 / 2 < w.
Proof.
  rewrite causal_mask_entries.
  do 4 eexists.
  split; [cbn; reflexivity|].
  split; [reflexivity|].
  split; [reflexivity|].
  fold Attention.mask_value.
  pose proof mask_value_pos as Hm.
  assert (He : 1 < exp Attention.mask_value).
  { pose proof (exp_ineq1 Attention.mask_value ltac:(lra)); lra. }
  match goal with
  | |- context [exp (?s / sqrt ?d)] =>
      replace (s / sqrt d) with 0 by (unfold Rdiv; ring)
  end.
  rewrite exp_0, Rplus_0_r.
  split; [reflexivity|].
  apply Rmult_lt_reg_r with (1 + exp Attention.mask_value); [lra|].
  replace (exp Attention.mask_value / (1 + exp Attention.mask_value)
           * (1 + exp Attention.mask_value))
    with (exp Attention.mask_value) by (field; lra).
  lra.
Qed.

Lemma example_model_constructed :
  DecoderTransformer.init 2 6 Example.we Example.attention Example.fc_layer
  = Some Example.model.
Proof. reflexivity. Qed.

(** C1, at the decoder [Example.model] and the two sequences [0; 0] and
    [0; 1], which agree at position 0 and differ at position 1: both
    forward passes succeed and their logits at position 0 differ. *)
Theorem first_logits_depend_on_next_token :
  exists (out out' : matrix) (logits logits' : vector),
    DecoderTransformer.forward Example.model [0; 0]%nat = Some out /\
    DecoderTransformer.forward Example.model [0; 1]%nat = Some out' /\
    nth_error [0; 0]%nat 0 = nth_error [0; 1]%nat 0 /\
    nth_error out 0 = Some logits /\
    nth_error out' 0 = Some logits' /\
    logits <> logits'.
Proof.
  do 4 eexists.
  unfold DecoderTransformer.forward.
  rewrite !causal_mask_entries.
  split; [cbn; reflexivity|].
  split; [cbn; reflexivity|].
  split; [reflexivity|].
  split; [reflexivity|].
  split; [reflexivity|].
  intros Heq.
  injection Heq as H0 _.
  name_transcendentals.
  match type of H0 with
  | context [?a / (?b + (?a + 0))] =>
      assert (Hw : 0 < a / (b + (a + 0)))
        by (apply Rdiv_lt_0_compat; lra);
      set (w := a / (b + (a + 0))) in *; clearbody w
  end.
  match type of H0 with
  | context [?b / (?b + (?a + 0))] =>
      set (w0 := b / (b + (a + 0))) in *; clearbody w0
  end.
  nra.
Qed.
End MaskedPositions.

(** * The table of positional encodings *)

Section PositionEncodingFacts.
Import Torch.
Local Open Scope R_scope.

Lemma selected_0 (j : nat) : PositionEncoding.selected 0 j = Nat.even j.
Proof.
  unfold PositionEncoding.selected; simpl; now rewrite Nat.sub_0_r.
Qed.

Lemma selected_1 (j : nat) : PositionEncoding.selected 1 j = Nat.odd j.
Proof.
  unfold PositionEncoding.selected.
  destruct j as [|j]; [reflexivity|].
  simpl Nat.leb; simpl Nat.sub; rewrite Nat.sub_0_r.
  now rewrite Nat.odd_succ.
Qed.

Lemma count_step (f : nat -> bool) (n : nat) :
  length (filter f (seq 0 (S n))) =
  (length (filter f (seq 0 n)) + if f n then 1 else 0)%nat.
Proof.
  rewrite seq_S, filter_app, length_app; simpl.
  now destruct (f n).
Qed.

Lemma count_selected (n : nat) :
  length (filter (PositionEncoding.selected 0) (seq 0 n)) = Nat.div2 (S n) /\
  length (filter (PositionEncoding.selected 1) (seq 0 n)) = Nat.div2 n.
Proof.
  induction n as [|n (IH0 & IH1)]; [split; reflexivity|].
  rewrite !count_step, IH0, IH1, selected_0, selected_1.
  unfold Nat.odd.
  destruct (Nat.even n) eqn:Hn; simpl negb; cbv iota.
  - apply Nat.even_spec in Hn as (k & ->).
    change (Nat.div2 (S (S (2 * k)))) with (S (Nat.div2 (2 * k))).
    rewrite Nat.div2_succ_double, Nat.div2_double; split; lia.
  - assert (Ho : Nat.odd n = true) by (unfold Nat.odd; now rewrite Hn).
    apply Nat.odd_spec in Ho as (k & ->).
    replace (2 * k + 1)%nat with (S (2 * k)) by lia.
    change (Nat.div2 (S (S (S (2 * k))))) with (S (Nat.div2 (S (2 * k)))).
    change (Nat.div2 (S (S (2 * k)))) with (S (Nat.div2 (2 * k))).
    rewrite Nat.div2_succ_double, Nat.div2_double; split; lia.
Qed.

Lemma nth_error_combine_seq {A : Type} (row : list A) (a j : nat) (x : A) :
  nth_error row j = Some x ->
  nth_error (combine (seq a (length row)) row) j = Some ((a + j)%nat, x).
Proof.
  revert a j; induction row as [|y row IH]; intros a [|j]; simpl;
    try discriminate.
  - intros [= ->]; now rewrite Nat.add_0_r.
  - intros Hj; rewrite (IH (S a) j Hj); f_equal; f_equal; lia.
Qed.

Lemma nth_error_combine {A B : Type} (u : list A) (v : list B) (i : nat) (a : A) (b : B) :
  nth_error u i = Some a -> nth_error v i = Some b ->
  nth_error (combine u v) i = Some (a, b).
Proof.
  revert v i; induction u as [|x u IH]; intros [|y v] [|i]; simpl;
    try discriminate.
  - now intros [= ->] [= ->].
  - apply IH.
Qed.

(** What a strided assignment leaves in a row. *)
Lemma assign_stride2_spec (start : nat) (row src row' : vector) :
  PositionEncoding.assign_stride2 start row src = Some row' ->
  length row' = length row /\
  (forall j x, nth_error row j = Some x ->
               PositionEncoding.selected start j = false ->
               nth_error row' j = Some x) /\
  (length src =
   length (filter (PositionEncoding.selected start) (seq 0 (length row))) ->
   forall j x, nth_error row j = Some x ->
               PositionEncoding.selected start j = true ->
               nth_error row' j = Some (nth (Nat.div2 (j - start)) src 0)).
Proof.
  unfold PositionEncoding.assign_stride2.
  set (slots := length (filter _ _)).
  intros Ha.
  apply bind_Some in Ha as (src' & Hsrc & [= <-]).
  split; [now rewrite length_map, length_combine, length_seq, Nat.min_id|].
  split.
  - intros j x Hj Hsel.
    rewrite nth_error_map, (nth_error_combine_seq row 0 j Hj); simpl.
    now rewrite Hsel.
  - intros Hlen j x Hj Hsel.
    rewrite (proj2 (Nat.eqb_eq _ _) Hlen) in Hsrc.
    injection Hsrc as <-.
    rewrite nth_error_map, (nth_error_combine_seq row 0 j Hj); simpl.
    now rewrite Hsel.
Qed.

Lemma assign_stride2_defined (start : nat) (row src : vector) :
  length src =
  length (filter (PositionEncoding.selected start) (seq 0 (length row))) ->
  PositionEncoding.assign_stride2 start row src <> None.
Proof.
  intros Hlen; unfold PositionEncoding.assign_stride2.
  rewrite (proj2 (Nat.eqb_eq _ _) Hlen); simpl; discriminate.
Qed.

(** A strided assignment that succeeds with sizes that differ broadcasts a
    single entry. *)
Lemma assign_stride2_sizes (start : nat) (row src row' : vector) :
  PositionEncoding.assign_stride2 start row src = Some row' ->
  length src =
  length (filter (PositionEncoding.selected start) (seq 0 (length row))) \/
  length src = 1%nat.
Proof.
  unfold PositionEncoding.assign_stride2.
  set (slots := length (filter _ _)).
  destruct (Nat.eqb_spec (length src) slots) as [Heq|Hne]; [now left|].
  destruct src as [|s [|s' src]]; simpl; try discriminate.
  now right.
Qed.

Lemma assign_columns_spec (start : nat) (pe src pe' : matrix) :
  PositionEncoding.assign_columns start pe src = Some pe' ->
  length pe' = length pe /\
  forall p row s, nth_error pe p = Some row -> nth_error src p = Some s ->
    exists row', nth_error pe' p = Some row' /\
                 PositionEncoding.assign_stride2 start row s = Some row'.
Proof.
  unfold PositionEncoding.assign_columns.
  destruct (Nat.eqb_spec (length pe) (length src)) as [Hlen|]; [|discriminate].
  intros Ht; split.
  - apply traverse_length in Ht.
    now rewrite length_combine, <- Hlen, Nat.min_id in Ht.
  - intros p row s Hrow Hs.
    destruct (traverse_nth_error _ _ _ Ht (nth_error_combine _ _ _ Hrow Hs))
      as (row' & Hrow' & Hassign).
    exists row'; auto.
Qed.

Lemma nth_error_angles (f : R -> R) (d_model max_len p : nat) :
  (p < max_len)%nat ->
  nth_error (map (map f) (PositionEncoding.angles d_model max_len)) p =
  Some (map (fun i => f (INR p * (1 / Rpower 10000 (INR (2 * i) / INR d_model))))
            (seq 0 (Nat.div2 (S d_model)))).
Proof.
  intros Hp.
  unfold PositionEncoding.angles, PositionEncoding.position,
    PositionEncoding.div_term, PositionEncoding.embedding_index.
  rewrite !nth_error_map.
  assert (Hseq : nth_error (seq 0 max_len) p = Some p).
  { rewrite nth_error_nth' with (d := 0%nat) by (now rewrite length_seq).
    now rewrite seq_nth. }
  rewrite Hseq; simpl.
  now rewrite !map_map.
Qed.

Lemma nth_map_seq (g : nat -> R) (n i : nat) :
  (i < n)%nat -> nth i (map g (seq 0 n)) 0 = g i.
Proof.
  intros Hi.
  rewrite nth_indep with (d' := g 0%nat) by (now rewrite length_map, length_seq).
  now rewrite map_nth, seq_nth.
Qed.

Lemma angles_row_length (f : R -> R) (d_model max_len : nat) (s : vector) :
  In s (map (map f) (PositionEncoding.angles d_model max_len)) ->
  length s = Nat.div2 (S d_model).
Proof.
  unfold PositionEncoding.angles, PositionEncoding.div_term,
    PositionEncoding.embedding_index.
  intros Hin.
  apply in_map_iff in Hin as (r & <- & Hr).
  apply in_map_iff in Hr as (p & <- & _).
  now rewrite !length_map, length_seq.
Qed.
End PositionEncodingFacts.

Section PositionEncodingTable.
Import Torch.
Local Open Scope R_scope.

Lemma assign_columns_rows (start : nat) (pe src pe' : matrix) (row' : vector) :
  PositionEncoding.assign_columns start pe src = Some pe' ->
  In row' pe' ->
  exists row s, In row pe /\ In s src /\
                PositionEncoding.assign_stride2 start row s = Some row'.
Proof.
  unfold PositionEncoding.assign_columns.
  destruct (length pe =? length src)%nat; [|discriminate].
  intros Ht Hin.
  destruct (traverse_In _ _ row' Ht Hin) as ([row s] & Hp & Hassign).
  exists row, s; repeat split.
  - eapply in_combine_l; eassumption.
  - eapply in_combine_r; eassumption.
  - exact Hassign.
Qed.

Lemma assign_columns_defined (start : nat) (pe src : matrix) :
  length pe = length src ->
  (forall row s, In row pe -> In s src ->
                 PositionEncoding.assign_stride2 start row s <> None) ->
  PositionEncoding.assign_columns start pe src <> None.
Proof.
  intros Hlen Hrows; unfold PositionEncoding.assign_columns.
  rewrite (proj2 (Nat.eqb_eq _ _) Hlen).
  apply traverse_defined; intros [row s] Hp; simpl.
  apply Hrows; [eapply in_combine_l | eapply in_combine_r]; eassumption.
Qed.

Lemma angles_length (f : R -> R) (d_model max_len : nat) :
  length (map (map f) (PositionEncoding.angles d_model max_len)) = max_len.
Proof.
  unfold PositionEncoding.angles, PositionEncoding.position.
  now rewrite !length_map, length_seq.
Qed.

Lemma half_bound (i d : nat) : (2 * i < d)%nat -> (i < Nat.div2 (S d))%nat.
Proof.
  intros Hi.
  pose proof (Nat.div2_odd (S d)) as Hd.
  destruct (Nat.odd (S d)); simpl Nat.b2n in Hd; lia.
Qed.

Lemma half_even (d : nat) : Nat.even d = true -> Nat.div2 (S d) = Nat.div2 d.
Proof.
  intros Hd; apply Nat.even_spec in Hd as (k & ->).
  now rewrite Nat.div2_succ_double, Nat.div2_double.
Qed.

(** C7: the table built by [PositionEncoding] has [max_len] rows of
    [d_model] entries; in the row of position p the entry 2i is
    sin(p * (1/10000^(2i/d_model))) and the entry 2i+1 is
    cos(p * (1/10000^(2i/d_model))); the construction succeeds for every
    even [d_model], and it is a function of [d_model] and [max_len] alone,
    so two constructions give the same table. *)
Theorem position_table_entries :
  forall d_model max_len : nat,
    (Nat.even d_model = true ->
     PositionEncoding.init d_model max_len <> None) /\
    (forall pe : matrix,
       PositionEncoding.init d_model max_len = Some pe ->
       length pe = max_len /\
       (forall (p : nat) (row : vector),
          nth_error pe p = Some row ->
          length row = d_model /\
          forall i : nat,
            ((2 * i < d_model)%nat ->
             nth_error row (2 * i) =
             Some (sin (INR p * (1 / Rpower 10000 (INR (2 * i) / INR d_model))))) /\
            ((2 * i + 1 < d_model)%nat ->
             nth_error row (2 * i + 1) =
             Some (cos (INR p * (1 / Rpower 10000 (INR (2 * i) / INR d_model)))))) /\
       (forall pe' : matrix,
          PositionEncoding.init d_model max_len = Some pe' -> pe' = pe)).
Proof.
  intros d m.
  destruct (count_selected d) as (Hc0 & Hc1).
  split.
  - intros Hev; unfold PositionEncoding.init.
    destruct (PositionEncoding.assign_columns 0 _ _) as [pe1|] eqn:H1; simpl.
    + destruct (PositionEncoding.assign_columns 1 pe1 _) as [pe2|] eqn:H2;
        simpl; [discriminate|].
      exfalso; revert H2; apply assign_columns_defined.
      * destruct (assign_columns_spec _ _ _ H1) as (Hl & _).
        now rewrite Hl, repeat_length, angles_length.
      * intros row1 s Hrow1 Hs.
        destruct (assign_columns_rows _ _ _ row1 H1 Hrow1)
          as (row0 & s0 & Hrow0 & _ & Ha).
        apply repeat_spec in Hrow0; subst row0.
        destruct (assign_stride2_spec _ _ _ Ha) as (Hl & _).
        rewrite repeat_length in Hl.
        apply assign_stride2_defined.
        rewrite Hl, Hc1, (angles_row_length _ _ _ _ Hs).
        now apply half_even.
    + exfalso; revert H1; apply assign_columns_defined.
      * now rewrite repeat_length, angles_length.
      * intros row0 s Hrow0 Hs.
        apply repeat_spec in Hrow0; subst row0.
        apply assign_stride2_defined.
        now rewrite repeat_length, Hc0, (angles_row_length _ _ _ _ Hs).
  - intros pe Hinit.
    pose proof Hinit as Hinit'.
    unfold PositionEncoding.init in Hinit'.
    apply bind_Some in Hinit' as (pe1 & H1 & Hinit').
    apply bind_Some in Hinit' as (pe2 & H2 & [= ->]).
    destruct (assign_columns_spec _ _ _ H1) as (Hl1 & Hrows1).
    destruct (assign_columns_spec _ _ _ H2) as (Hl2 & Hrows2).
    rewrite repeat_length in Hl1.
    split; [congruence|].
    split; [|intros pe' Hpe'; congruence].
    intros p row Hrow.
    assert (Hp : (p < m)%nat).
    { rewrite <- Hl1, <- Hl2; apply nth_error_Some; congruence. }
    assert (Hzero : nth_error (repeat (repeat 0 d) m) p = Some (repeat 0 d)).
    { rewrite nth_error_nth' with (d := repeat 0 d)
        by (now rewrite repeat_length).
      now rewrite nth_repeat. }
    destruct (Hrows1 p _ _ Hzero (nth_error_angles sin d Hp))
      as (row1 & Hrow1 & Ha1).
    destruct (Hrows2 p _ _ Hrow1 (nth_error_angles cos d Hp))
      as (row2 & Hrow2 & Ha2).
    assert (row2 = row) by congruence; subst row2.
    destruct (assign_stride2_spec _ _ _ Ha1) as (Hlen1 & _ & Hsel1).
    destruct (assign_stride2_spec _ _ _ Ha2) as (Hlen2 & Hkeep2 & Hsel2).
    rewrite repeat_length in Hlen1.
    split; [congruence|].
    intros i; split; intros Hi.
    + assert (Hz : nth_error (repeat 0 d) (2 * i) = Some 0).
      { rewrite nth_error_nth' with (d := 0) by (now rewrite repeat_length).
        now rewrite nth_repeat. }
      rewrite (Hkeep2 (2 * i)%nat
                 (nth (Nat.div2 (2 * i - 0))
                    (map (fun i0 => sin (INR p * (1 / Rpower 10000 (INR (2 * i0) / INR d))))
                         (seq 0 (Nat.div2 (S d)))) 0)).
      * rewrite Nat.sub_0_r, Nat.div2_double.
        now rewrite nth_map_seq by (now apply half_bound).
      * apply Hsel1 with (x := 0).
        -- now rewrite repeat_length, Hc0, length_map, length_seq.
        -- exact Hz.
        -- rewrite selected_0; apply Nat.even_spec; now exists i.
      * rewrite selected_1; unfold Nat.odd.
        replace (Nat.even (2 * i)) with true; [reflexivity|].
        symmetry; apply Nat.even_spec; now exists i.
    + assert (Hx : exists x, nth_error row1 (2 * i + 1) = Some x).
      { destruct (nth_error row1 (2 * i + 1)) as [x|] eqn:Hx; [now exists x|].
        apply nth_error_None in Hx; lia. }
      destruct Hx as (x & Hx).
      assert (Hsize :
                length (map (fun i0 => cos (INR p * (1 / Rpower 10000 (INR (2 * i0) / INR d))))
                            (seq 0 (Nat.div2 (S d)))) =
                length (filter (PositionEncoding.selected 1) (seq 0 (length row1)))).
      { rewrite Hlen1, Hc1, length_map, length_seq.
        destruct (assign_stride2_sizes _ _ _ Ha2) as [Hs|Hs];
          rewrite length_map, length_seq in Hs.
        - now rewrite Hs, Hlen1, Hc1.
        - destruct d as [|[|[|[|d]]]]; simpl in Hs |- *; try lia. }
      rewrite (Hsel2 Hsize (2 * i + 1)%nat x Hx).
      * replace (2 * i + 1 - 1)%nat with (2 * i)%nat by lia.
        rewrite Nat.div2_double.
        now rewrite nth_map_seq by (apply half_bound; lia).
      * rewrite selected_1; apply Nat.odd_spec; now exists i.
Qed.
End PositionEncodingTable.

(** * The generation loop *)

Section GenerationLoop.
Import Torch Predict.

Variable model : DecoderTransformer.t.

(** One iteration of the loop, with the monad unfolded. *)
Lemma generate_cons (i : nat) (range : list nat) (input : list nat) (pid : nat)
    (pids : list nat) (log : list (list nat)) :
  generate model (i :: range) input pid pids log =
  if (pid =? 4)%nat then (Some pids, log)
  else
    match DecoderTransformer.forward model (input ++ [pid]) with
    | None => (None, log ++ [input ++ [pid]])
    | Some predictions =>
        match argmax_last predictions with
        | None => (None, log ++ [input ++ [pid]])
        | Some tok =>
            generate model range (input ++ [pid]) tok (pids ++ [tok])
              (log ++ [input ++ [pid]])
        end
    end.
Proof.
  cbn [generate]; unfold bindM, lift, call, ret.
  change (getitem String.eqb token_to_id "<EOS>"%string) with (Some 4).
  cbv beta iota.
  destruct (pid =? 4)%nat; [reflexivity|].
  destruct (DecoderTransformer.forward model (input ++ [pid])); [|reflexivity].
  destruct (argmax_last m); reflexivity.
Qed.

Lemma predicted_ids_unfold (seed : list nat) :
  predicted_ids model seed [] =
  match DecoderTransformer.forward model seed with
  | None => (None, [seed])
  | Some predictions =>
      match argmax_last predictions with
      | None => (None, [seed])
      | Some pid =>
          generate model (seq (length seed) (max_length - length seed))
            seed pid [pid] [seed]
      end
  end.
Proof.
  unfold predicted_ids, bindM, lift, call; simpl app.
  destruct (DecoderTransformer.forward model seed); [|reflexivity].
  destruct (argmax_last m); reflexivity.
Qed.

(** The loop over [range], started after a pass on [input] that predicted
    [pid]: it appends its passes to the log, at most one per value of the
    range, each on the previous input grown by the token predicted from
    it; when it ends normally it has appended one id per pass, and an end
    marker can only be the last id. *)
Lemma generate_spec (range : list nat) :
  forall (input : list nat) (pid : nat) (pids : list nat) (log : list (list nat)),
    predicts model input pid ->
    exists new : list (list nat),
      snd (generate model range input pid pids log) = log ++ new /\
      length new <= length range /\
      Sorted (grows model) (input :: new) /\
      forall ids : list nat,
        fst (generate model range input pid pids log) = Some ids ->
        exists newids : list nat,
          ids = pids ++ newids /\
          Forall2 (predicts model) new newids /\
          Forall (fun tok => tok <> 4) (removelast (pid :: newids)) /\
          (last (pid :: newids) 0 = 4 \/ length new = length range).
Proof.
  induction range as [|i range IH]; intros input pid pids log Hpid.
  - exists []; simpl; rewrite app_nil_r.
    split; [reflexivity|].
    split; [apply Nat.le_refl|].
    split; [repeat constructor|].
    intros ids [= <-]; exists []; rewrite app_nil_r.
    split; [reflexivity|].
    split; [constructor|].
    split; [constructor | right; reflexivity].
  - rewrite generate_cons.
    destruct (Nat.eqb_spec pid 4) as [Heos|Hne].
    + exists []; simpl; rewrite app_nil_r.
      split; [reflexivity|].
      split; [apply Nat.le_0_l|].
      split; [repeat constructor|].
      intros ids [= <-]; exists []; rewrite app_nil_r.
      split; [reflexivity|].
      split; [constructor|].
      split; [constructor | left; exact Heos].
    + assert (Hgrow : grows model input (input ++ [pid])).
      { exists pid; auto. }
      destruct (DecoderTransformer.forward model (input ++ [pid]))
        as [predictions|] eqn:Hfwd.
      2:{ exists [input ++ [pid]]; simpl.
          split; [reflexivity|].
          split; [lia|].
          split; [repeat constructor; exact Hgrow | discriminate]. }
      destruct (argmax_last predictions) as [tok|] eqn:Htok.
      2:{ exists [input ++ [pid]]; simpl.
          split; [reflexivity|].
          split; [lia|].
          split; [repeat constructor; exact Hgrow | discriminate]. }
      assert (Htok' : predicts model (input ++ [pid]) tok)
        by (exists predictions; auto).
      destruct (IH (input ++ [pid]) tok (pids ++ [tok]) (log ++ [input ++ [pid]]) Htok')
        as (new & Hlog & Hlen & Hsorted & Hids).
      exists ((input ++ [pid]) :: new).
      split; [rewrite Hlog, <- app_assoc; reflexivity|].
      split; [simpl; lia|].
      split; [constructor; [exact Hsorted | constructor; exact Hgrow]|].
      intros ids Hres.
      destruct (Hids ids Hres) as (newids & -> & Hall & Hfront & Hlast).
      exists (tok :: newids).
      split; [rewrite <- app_assoc; reflexivity|].
      split; [constructor; [exists predictions; auto | exact Hall]|].
      split.
      * change (removelast (pid :: tok :: newids))
          with (pid :: removelast (tok :: newids)).
        constructor; assumption.
      * destruct Hlast as [Hlast|Hlast]; [left; exact Hlast|right; simpl; lia].
Qed.

(** The run of [predicted_ids] from a seed of at most [max_length] tokens,
    when it returns. *)
Lemma predicted_ids_spec :
  forall seed : list nat,
    length seed <= max_length ->
    exists new : list (list nat),
      passes model seed = seed :: new /\
      length new <= max_length - length seed /\
      Sorted (grows model) (seed :: new) /\
      forall ids : list nat,
        outcome model seed = Some ids ->
        Forall2 (predicts model) (seed :: new) ids /\
        Forall (fun tok => tok <> 4) (removelast ids) /\
        (last ids 0 = 4 \/ length seed + length new = max_length).
Proof.
  intros seed Hseed.
  unfold passes, outcome; rewrite predicted_ids_unfold.
  destruct (DecoderTransformer.forward model seed) as [predictions|] eqn:Hfwd.
  2:{ exists []; simpl.
      split; [reflexivity|].
      split; [apply Nat.le_0_l|].
      split; [repeat constructor | discriminate]. }
  destruct (argmax_last predictions) as [pid|] eqn:Hpid.
  2:{ exists []; simpl.
      split; [reflexivity|].
      split; [apply Nat.le_0_l|].
      split; [repeat constructor | discriminate]. }
  assert (Hpredicts : predicts model seed pid) by (exists predictions; auto).
  destruct (@generate_spec (seq (length seed) (max_length - length seed))
              seed pid [pid] [seed] Hpredicts)
    as (new & Hlog & Hlen & Hsorted & Hids).
  rewrite length_seq in Hlen.
  exists new.
  split; [exact Hlog|].
  split; [exact Hlen|].
  split; [exact Hsorted|].
  intros ids Hres.
  destruct (Hids ids Hres) as (newids & -> & Hall & Hfront & Hlast).
  split; [constructor; [exists predictions; auto | exact Hall]|].
  split; [exact Hfront|].
  destruct Hlast as [Hlast|Hlast]; [left; exact Hlast|right].
  rewrite Hlast, length_seq; lia.
Qed.

Lemma last_cons_default {A : Type} (l : list A) :
  forall a d d' : A, last (a :: l) d = last (a :: l) d'.
Proof.
  induction l as [|b l IH]; intros a d d'; [reflexivity|].
  change (last (a :: b :: l) d) with (last (b :: l) d).
  change (last (a :: b :: l) d') with (last (b :: l) d').
  apply IH.
Qed.

Lemma predicts_forward (input : list nat) (tok : nat) (predictions : matrix) :
  predicts model input tok ->
  DecoderTransformer.forward model input = Some predictions ->
  argmax_last predictions = Some tok.
Proof.
  intros (predictions' & Hfwd & Htok) Hfwd'; congruence.
Qed.

(** The loop raises only when its last pass did: the model raised on the
    last input of the log, or its logits have no greatest entry. *)
Lemma generate_raises (range : list nat) :
  forall (input : list nat) (pid : nat) (pids : list nat)
         (log new : list (list nat)),
    snd (generate model range input pid pids log) = log ++ new ->
    fst (generate model range input pid pids log) = None ->
    forall tok : nat, ~ predicts model (last (input :: new) input) tok.
Proof.
  induction range as [|i range IH]; intros input pid pids log new Hlog Hnone.
  - discriminate.
  - rewrite generate_cons in Hlog, Hnone.
    destruct (pid =? 4)%nat; [discriminate|].
    destruct (DecoderTransformer.forward model (input ++ [pid]))
      as [predictions|] eqn:Hfwd.
    2:{ apply app_inv_head in Hlog; subst new; cbn [last fst snd].
        intros tok (predictions & Hfwd' & _); congruence. }
    destruct (argmax_last predictions) as [tok|] eqn:Htok.
    2:{ apply app_inv_head in Hlog; subst new; cbn [last fst snd].
        intros tok Hp.
        pose proof (predicts_forward Hp Hfwd); congruence. }
    assert (Htok' : predicts model (input ++ [pid]) tok)
      by (exists predictions; auto).
    destruct (@generate_spec range (input ++ [pid]) tok (pids ++ [tok])
                (log ++ [input ++ [pid]]) Htok')
      as (new' & Hlog' & _).
    assert (Hnew : new = (input ++ [pid]) :: new').
    { apply (app_inv_head log).
      rewrite <- Hlog, Hlog', <- app_assoc; reflexivity. }
    subst new.
    change (last (input :: (input ++ [pid]) :: new') input)
      with (last ((input ++ [pid]) :: new') input).
    rewrite (last_cons_default new' (input ++ [pid]) input (input ++ [pid])).
    exact (IH _ _ _ _ _ Hlog' Hnone).
Qed.

Lemma predicted_ids_raises (seed : list nat) (new : list (list nat)) :
  passes model seed = seed :: new ->
  outcome model seed = None ->
  forall tok : nat, ~ predicts model (last (seed :: new) seed) tok.
Proof.
  unfold passes, outcome; rewrite predicted_ids_unfold.
  destruct (DecoderTransformer.forward model seed) as [predictions|] eqn:Hfwd.
  2:{ intros [= <-] _ tok (predictions & Hfwd' & _); simpl in Hfwd'; congruence. }
  destruct (argmax_last predictions) as [pid|] eqn:Hpid.
  2:{ intros [= <-] _ tok Hp; simpl in Hp.
      pose proof (predicts_forward Hp Hfwd); congruence. }
  intros Hlog Hnone.
  exact (@generate_raises _ seed pid [pid] [seed] new Hlog Hnone).
Qed.
End GenerationLoop.


(** * The theorems at concrete inputs *)

Section Instances.
Import Torch.
Local Open Scope R_scope.

(** The forward pass on the input of company A is four updates. *)
Lemma forward_is_four_updates_company_a :
  LSTM.forward Example.lstm Example.company_a =
  Some (snd (fold_left (LSTM.step Example.lstm) Example.company_a
               (ts_zero, ts_zero))).
Proof.
  apply (forward_is_four_updates Example.lstm Example.company_a).
  reflexivity.
Defined.

(** A fifth element does not change the prediction for company A, and
    three elements are too few. *)
Lemma forward_reads_first_four_company_a :
  LSTM.forward Example.lstm (Example.company_a ++ [7]) =
  LSTM.forward Example.lstm Example.company_a /\
  LSTM.forward Example.lstm [0; 0.5; 0.25] = None.
Proof.
  split.
  - apply (proj2 (forward_reads_first_four Example.lstm Example.company_a)).
    simpl; lia.
  - apply (proj1 (forward_reads_first_four Example.lstm [0; 0.5; 0.25])).
    simpl; lia.
Defined.

(** The table of the notebook's decoder: at position 1 the entries are
    sin(1 * (1/10000^(0/2))) and cos(1 * (1/10000^(0/2))). *)
Lemma position_table_entries_example :
  PositionEncoding.init 2 6 = Some Example.pe /\
  nth_error Example.pe 1 =
  Some [sin (INR 1 * (1 / Rpower 10000 (INR (2 * 0) / INR 2)));
        cos (INR 1 * (1 / Rpower 10000 (INR (2 * 0) / INR 2)))] /\
  nth_error [sin (INR 1 * (1 / Rpower 10000 (INR (2 * 0) / INR 2)));
             cos (INR 1 * (1 / Rpower 10000 (INR (2 * 0) / INR 2)))] (2 * 0 + 1) =
  Some (cos (INR 1 * (1 / Rpower 10000 (INR (2 * 0) / INR 2)))).
Proof.
  split; [reflexivity|].
  split; [reflexivity|].
  refine (proj2 (proj2 (proj1 (proj2 (proj2 (position_table_entries 2 6)
            Example.pe eq_refl)) 1%nat _ eq_refl) 0%nat) _).
  simpl; lia.
Defined.

End Instances.

(** * One training step of the hand-written LSTM *)

Section TrainingStep.
Local Open Scope R_scope.

Lemma forward_Some_long (self : LSTM.params R) (X : list R) (y : R) :
  LSTM.forward self X = Some y -> (4 <= length X)%nat.
Proof.
  destruct X as [|a [|b [|c [|d rest]]]]; try discriminate.
  intros _; simpl; lia.
Qed.

Lemma forward_None_short (self : LSTM.params R) (X : list R) :
  LSTM.forward self X = None -> (length X < 4)%nat.
Proof.
  destruct X as [|a [|b [|c [|d rest]]]]; simpl; try lia.
  rewrite forward_cons4; discriminate.
Qed.

(** X3: a training step raises exactly when the batch has no input row, its
    first row has fewer than 4 elements, or the labels are not a single
    element. *)
Theorem training_step_raises_iff :
  forall (self : LSTM.params R) (input_i : matrix) (label_i : vector),
    LSTMbyHand.training_step self (input_i, label_i) = None <->
    (input_i = [] \/
     (exists x rest, input_i = x :: rest /\ (length x < 4)%nat) \/
     length label_i <> 1%nat).
Proof.
  intros self input_i label_i; unfold LSTMbyHand.training_step.
  destruct input_i as [|x rest]; cbn [nth_error bind].
  - split; [now left | reflexivity].
  - destruct (LSTM.forward self x) as [y|] eqn:Hy; cbn [bind].
    + destruct label_i as [|label [|label' label_i]].
      * split; [intros _; right; right; discriminate | reflexivity].
      * split; [destruct (Req_EM_T label 0); discriminate|].
        intros [Hempty|[(x' & rest' & [= <- <-] & Hshort)|Hlabel]].
        -- discriminate.
        -- pose proof (forward_Some_long _ _ Hy) as Hlen; lia.
        -- now contradiction Hlabel.
      * split; [intros _; right; right; simpl; discriminate | reflexivity].
    + split; [|reflexivity].
      intros _; right; left; exists x, rest; split; [reflexivity|].
      now apply (forward_None_short self).
Qed.
End TrainingStep.

(** * The forward pass of the decoder: errors and shapes *)

Section ForwardShapes.
Import Torch.
Local Open Scope R_scope.

Lemma traverse_None {A B : Type} (f : A -> option B) (l : list A) (a : A) :
  In a l -> f a = None -> traverse f l = None.
Proof.
  intros Hin Hfa.
  destruct (traverse f l) as [l'|] eqn:Hl; [|reflexivity].
  apply traverse_Forall2 in Hl.
  exfalso; revert Hin.
  induction Hl as [|a' b' l1 l2 Hab _ IH]; simpl; [tauto|].
  intros [->|Hin]; [congruence | auto].
Qed.

Lemma rows_of_width_In {A : Type} (d : nat) (m : list (list A)) (row : list A) :
  rows_of_width d m -> In row m -> length row = d.
Proof. unfold rows_of_width; rewrite Forall_forall; auto. Qed.

Lemma In_firstn {A : Type} (n : nat) (l : list A) (a : A) :
  In a (firstn n l) -> In a l.
Proof.
  revert l; induction n as [|n IH]; intros [|x l]; simpl; try tauto.
  intros [->|Hin]; [now left | right; now apply IH].
Qed.

Lemma rows_of_width_firstn {A : Type} (d n : nat) (m : list (list A)) :
  rows_of_width d m -> rows_of_width d (firstn n m).
Proof.
  unfold rows_of_width; rewrite !Forall_forall; intros Hm row Hin.
  apply Hm; eapply In_firstn; eassumption.
Qed.

(** Rows looked up in a table have the width of the table. *)
Lemma embedding_shape (table : matrix) (token_ids : list nat) (d : nat) (x : matrix) :
  rows_of_width d table ->
  embedding table token_ids = Some x ->
  length x = length token_ids /\ rows_of_width d x.
Proof.
  intros Htable Hx; split; [eapply traverse_length; eassumption|].
  apply Forall_forall; intros row Hrow.
  destruct (traverse_In _ _ row Hx Hrow) as (id & _ & Hid).
  eapply (@rows_of_width_In _ d table); [exact Htable | eapply nth_error_In; eassumption].
Qed.

Lemma embedding_defined (table : matrix) (token_ids : list nat) :
  Forall (fun id => (id < length table)%nat) token_ids ->
  embedding table token_ids <> None.
Proof.
  rewrite Forall_forall; intros Hids.
  apply traverse_defined; intros id Hid.
  apply nth_error_Some; auto.
Qed.

(** The sum of two tensors of one shape has that shape. *)
Lemma add_same_shape (a b : matrix) (d : nat) :
  length a = length b -> rows_of_width d a -> rows_of_width d b ->
  exists c, add a b = Some c /\ length c = length a /\ rows_of_width d c.
Proof.
  intros Hlen Ha Hb; unfold add.
  rewrite zip_broadcast_same by exact Hlen.
  assert (Hrow : forall p, In p (combine a b) ->
            zip_broadcast (fun x y => Some (x + y)) (fst p) (snd p) =
            Some (map (fun xy => fst xy + snd xy) (combine (fst p) (snd p)))).
  { intros [ra rb] Hp; simpl.
    rewrite zip_broadcast_same.
    - apply traverse_total.
    - rewrite (@rows_of_width_In _ d a _ Ha (in_combine_l _ _ _ _ Hp)).
      rewrite (@rows_of_width_In _ d b _ Hb (in_combine_r _ _ _ _ Hp)); reflexivity. }
  destruct (traverse _ (combine a b)) as [c|] eqn:Hc.
  - exists c; split; [reflexivity|].
    pose proof (traverse_length _ _ Hc) as Hl.
    rewrite length_combine, <- Hlen, Nat.min_id in Hl.
    split; [exact Hl|].
    apply Forall_forall; intros row Hin.
    destruct (traverse_In _ _ row Hc Hin) as ([ra rb] & Hp & Hr).
    rewrite (Hrow _ Hp) in Hr; injection Hr as <-.
    rewrite length_map, length_combine; simpl.
    rewrite (@rows_of_width_In _ d a _ Ha (in_combine_l _ _ _ _ Hp)).
    rewrite (@rows_of_width_In _ d b _ Hb (in_combine_r _ _ _ _ Hp)).
    apply Nat.min_id.
  - exfalso; revert Hc; apply traverse_defined.
    intros p Hp; rewrite (Hrow p Hp); discriminate.
Qed.

Lemma matmul_shape (a b c : matrix) (width : nat) :
  matmul a b width = Some c ->
  length c = length a /\ rows_of_width width c.
Proof.
  unfold matmul.
  destruct (forallb _ b); [|discriminate].
  intros Hc; split; [eapply traverse_length; eassumption|].
  apply Forall_forall; intros row Hin.
  destruct (traverse_In _ _ row Hc Hin) as (a_i & _ & Hrow).
  apply traverse_length in Hrow; now rewrite length_seq in Hrow.
Qed.

(** Whatever the input, a linear layer returns rows with one entry per row
    of its weight. *)
Lemma linear_width (self : Linear) (x y : matrix) :
  linear self x = Some y -> rows_of_width (length (weight self)) y.
Proof.
  intros Hy; apply Forall_forall; intros row Hin.
  destruct (traverse_In _ _ row Hy Hin) as (xr & _ & Hxr).
  unfold linear_row in Hxr.
  apply bind_Some in Hxr as (y' & Hy' & Hrow).
  apply traverse_length in Hy'.
  destruct (bias self) as [b|]; [|injection Hrow as <-; exact Hy'].
  destruct (length b =? length y')%nat eqn:Hb; [|discriminate].
  injection Hrow as <-.
  apply Nat.eqb_eq in Hb.
  rewrite length_map, length_combine, Hb, Nat.min_id; exact Hy'.
Qed.

Lemma linear_shape_defined (self : Linear) (x : matrix)
    (d out : nat) (with_bias : bool) :
  Shapes.linear_shape d out with_bias self -> rows_of_width d x ->
  exists y, linear self x = Some y /\ length y = length x /\ rows_of_width out y.
Proof.
  intros (Hout & Hw & Hb) Hx.
  destruct (linear self x) as [y|] eqn:Hy.
  - exists y; split; [reflexivity|].
    split; [eapply linear_length; eassumption|].
    rewrite <- Hout; eapply linear_width; eassumption.
  - exfalso; revert Hy; apply traverse_defined.
    intros xr Hxr; unfold linear_row.
    destruct (traverse (fun w => dot xr w) (weight self)) as [y'|] eqn:Hy'.
    + cbn [bind]; apply traverse_length in Hy'.
      destruct (bias self) as [b|]; [|discriminate].
      destruct Hb as (_ & Hb).
      assert (Heq : (length b =? length y')%nat = true)
        by (apply Nat.eqb_eq; rewrite Hb, Hy'; symmetry; exact Hout).
      rewrite Heq; discriminate.
    + exfalso; revert Hy'; apply traverse_defined.
      intros w Hin; apply dot_defined.
      rewrite (@rows_of_width_In _ d x _ Hx Hxr), (@rows_of_width_In _ d _ _ Hw Hin); reflexivity.
Qed.

(** The logits have one row per token and one column per row of the
    weight of [fc_layer], for every model. *)
Lemma forward_output_width (m : DecoderTransformer.t) (token_ids : list nat) (out : matrix) :
  DecoderTransformer.forward m token_ids = Some out ->
  rows_of_width (length (weight (DecoderTransformer.fc_layer m))) out.
Proof.
  unfold DecoderTransformer.forward; intros Hf.
  apply bind_Some in Hf as (we & _ & Hf).
  apply bind_Some in Hf as (x & _ & Hf).
  apply bind_Some in Hf as (att & _ & Hf).
  apply bind_Some in Hf as (res & _ & Hf).
  apply bind_Some in Hf as (fc & Hfc & [= <-]).
  eapply linear_width; eassumption.
Qed.

Lemma forward_nil (m : DecoderTransformer.t) :
  DecoderTransformer.forward m [] = Some [].
Proof. reflexivity. Qed.

(** Self-attention with the causal mask, on encodings of the width the
    layers expect: it returns, with one row of weights and one row of
    scores per position. *)
Lemma self_attention_shape (self : Attention.t) (x : matrix) (d : nat) :
  Shapes.attention_shape d self -> rows_of_width d x ->
  exists P scores,
    Attention.forward_locals self x x x
      (Some (DecoderTransformer.causal_mask (length x))) = Some (P, scores) /\
    length P = length x /\
    Forall (fun row => length row = length x) P /\
    length scores = length x /\
    rows_of_width d scores.
Proof.
  intros ((Hql & Hqw & Hqb) & (Hkl & Hkw & Hkb) & (Hvl & Hvw & Hvb)) Hx.
  assert (Hbias : forall l : Linear,
            match bias l with
            | None => false = false
            | Some b => false = true /\ length b = d
            end -> bias l = None).
  { intros l Hl; destruct (bias l); [destruct Hl; discriminate | reflexivity]. }
  pose proof (@self_attention_returns self x d
                (Some (DecoderTransformer.causal_mask (length x)))
                (Hbias _ Hqb) (Hbias _ Hkb) (Hbias _ Hvb) Hqw Hkw Hvw
                (eq_trans Hql (eq_sym Hkl)) Hx (or_intror eq_refl)) as Hatt.
  destruct (Attention.forward_locals self x x x _) as [[P scores]|] eqn:Hrun;
    [|now contradiction Hatt].
  exists P, scores; split; [reflexivity|].
  pose proof Hrun as Hrun'.
  destruct (forward_locals_inv _ _ _ _ _ Hrun)
    as (q & k & sims & scaled & Hq & Hk & Hsims & Hscaled & ->).
  apply linear_length in Hq, Hk.
  destruct (matmul_transposed_shape _ _ Hsims) as (Hls & Hrs).
  rewrite Hq in Hls; rewrite Hk in Hrs.
  set (scale := map (map (fun s : R => s / _)) sims) in Hscaled.
  assert (Hsc : length scale = length x /\
                Forall (fun row => length row = length x) scale).
  { subst scale; split; [now rewrite length_map|].
    apply Forall_forall; intros row Hin.
    apply in_map_iff in Hin as (r & <- & Hr).
    rewrite length_map.
    rewrite Forall_forall in Hrs; now apply Hrs. }
  destruct Hsc as (Hscl & Hscr).
  destruct (causal_mask_shape (length x)) as (Hml & Hmr).
  destruct (@masked_fill_same_shape scale _ _ (length x) scaled
              (eq_trans Hscl (eq_sym Hml)) Hscr Hmr Hscaled) as (Hl & Hr).
  assert (HP : length (softmax scaled) = length x)
    by (unfold softmax; rewrite length_map; exact (eq_trans Hl Hscl)).
  split; [exact HP|].
  split.
  { apply Forall_forall; intros row Hin.
    apply in_map_iff in Hin as (r & <- & Hrin).
    unfold softmax_row; rewrite length_map.
    rewrite Forall_forall in Hr; now apply Hr. }
  unfold Attention.forward_locals in Hrun'.
  apply bind_Some in Hrun' as (q' & _ & Hrun').
  apply bind_Some in Hrun' as (k' & _ & Hrun').
  apply bind_Some in Hrun' as (v' & _ & Hrun').
  apply bind_Some in Hrun' as (sims' & _ & Hrun').
  apply bind_Some in Hrun' as (scaled' & _ & Hrun').
  apply bind_Some in Hrun' as (sc & Hsc & Heq).
  injection Heq as Hsame ->.
  destruct (matmul_shape _ _ _ Hsc) as (Hscoresl & Hscoresw).
  rewrite Hvl in Hscoresw.
  split; [rewrite <- HP, <- Hsame; exact Hscoresl | exact Hscoresw].
Qed.

(** On a model of the shapes of [__init__], tokens of the vocabulary and no
    more of them than positions, every stage of the forward pass is
    defined. *)
Lemma forward_defined_shape (m : DecoderTransformer.t)
    (num_tokens d_model max_len : nat) (token_ids : list nat) :
  Shapes.decoder_shape num_tokens d_model max_len m ->
  Forall (fun id => (id < num_tokens)%nat) token_ids ->
  (length token_ids <= max_len)%nat ->
  exists out,
    DecoderTransformer.forward m token_ids = Some out /\
    length out = length token_ids /\
    rows_of_width num_tokens out.
Proof.
  intros (Hwe & Hwew & Hpe & Hpew & Hatt & Hfc) Hids Hlen.
  unfold DecoderTransformer.forward.
  destruct (embedding (DecoderTransformer.we m) token_ids) as [x|] eqn:Hx.
  2:{ exfalso; revert Hx; apply embedding_defined; now rewrite Hwe. }
  destruct (embedding_shape _ Hwew Hx) as (Hxl & Hxw).
  cbn [bind]; unfold PositionEncoding.forward.
  destruct (@add_same_shape x (firstn (length x) (DecoderTransformer.pe m)) d_model)
    as (enc & Henc & Hencl & Hencw).
  { rewrite length_firstn, Hpe, Hxl; lia. }
  { exact Hxw. }
  { now apply rows_of_width_firstn. }
  rewrite Henc; cbn [bind].
  destruct (self_attention_shape Hatt Hencw)
    as (P & scores & Hrun & _ & _ & Hscl & Hscw).
  rewrite <- Hxl, <- Hencl.
  unfold Attention.forward; rewrite Hrun; cbn [bind snd].
  destruct (@add_same_shape enc scores d_model) as (res & Hres & Hresl & Hresw);
    [symmetry; exact Hscl | exact Hencw | exact Hscw |].
  rewrite Hres; cbn [bind].
  destruct (linear_shape_defined Hfc Hresw) as (out & Hout & Houtl & Houtw).
  rewrite Hout; cbn [bind].
  exists out; split; [reflexivity|].
  split; [exact (eq_trans Houtl Hresl) | exact Houtw].
Qed.
End ForwardShapes.

Section ForwardErrors.
Import Torch.
Local Open Scope R_scope.

Lemma position_table_shape (d_model max_len : nat) (pe : matrix) :
  PositionEncoding.init d_model max_len = Some pe ->
  length pe = max_len /\ rows_of_width d_model pe.
Proof.
  unfold PositionEncoding.init; intros Hinit.
  apply bind_Some in Hinit as (pe1 & H1 & Hinit).
  apply bind_Some in Hinit as (pe2 & H2 & [= ->]).
  destruct (assign_columns_spec _ _ _ H1) as (Hl1 & _).
  destruct (assign_columns_spec _ _ _ H2) as (Hl2 & _).
  rewrite repeat_length in Hl1.
  split; [exact (eq_trans Hl2 Hl1)|].
  apply Forall_forall; intros row Hrow.
  destruct (assign_columns_rows _ _ _ row H2 Hrow) as (row1 & s1 & Hrow1 & _ & Ha1).
  destruct (assign_columns_rows _ _ _ row1 H1 Hrow1) as (row0 & s0 & Hrow0 & _ & Ha0).
  apply repeat_spec in Hrow0; subst row0.
  destruct (assign_stride2_spec _ _ _ Ha1) as (Hlen1 & _).
  destruct (assign_stride2_spec _ _ _ Ha0) as (Hlen0 & _).
  rewrite repeat_length in Hlen0.
  exact (eq_trans Hlen1 Hlen0).
Qed.

(** A decoder built by [__init__] from parameters of the shapes of
    [nn.Embedding(num_tokens, d_model)], [Attention(d_model)] and
    [nn.Linear(d_model, num_tokens)] has the shapes of the class. *)
Lemma init_decoder_shape (num_tokens d_model max_len : nat) (we : matrix)
    (att : Attention.t) (fc : Linear) (m : DecoderTransformer.t) :
  DecoderTransformer.init d_model max_len we att fc = Some m ->
  length we = num_tokens -> rows_of_width d_model we ->
  Shapes.attention_shape d_model att ->
  Shapes.linear_shape d_model num_tokens true fc ->
  Shapes.decoder_shape num_tokens d_model max_len m.
Proof.
  unfold DecoderTransformer.init; intros Hinit Hwe Hwew Hatt Hfc.
  apply bind_Some in Hinit as (pe & Hpe & [= <-]).
  destruct (position_table_shape _ _ Hpe) as (Hl & Hw).
  unfold Shapes.decoder_shape; cbn.
  split; [exact Hwe|].
  split; [exact Hwew|].
  split; [exact Hl|].
  split; [exact Hw|].
  split; [exact Hatt | exact Hfc].
Qed.

(** X5: on the empty token sequence the forward pass of every decoder
    returns the empty tensor of logits; nothing raises. *)
Theorem forward_empty_sequence :
  forall m : DecoderTransformer.t,
    DecoderTransformer.forward m [] = Some [].
Proof. intros m; apply forward_nil. Qed.

(** X6: a token id that is not a row of the embedding table makes the
    forward pass raise, wherever it stands in the sequence. *)
Theorem forward_unknown_token :
  forall (m : DecoderTransformer.t) (token_ids : list nat) (id : nat),
    In id token_ids ->
    (length (DecoderTransformer.we m) <= id)%nat ->
    DecoderTransformer.forward m token_ids = None.
Proof.
  intros m token_ids id Hin Hid.
  unfold DecoderTransformer.forward.
  assert (Hemb : embedding (DecoderTransformer.we m) token_ids = None).
  { apply traverse_None with (a := id); [exact Hin|].
    now apply nth_error_None. }
  now rewrite Hemb.
Qed.

Lemma add_rows_mismatch (a b : matrix) :
  length a <> length b -> length a <> 1%nat -> length b <> 1%nat ->
  add a b = None.
Proof.
  intros Hab Ha Hb; unfold add, zip_broadcast.
  rewrite (proj2 (Nat.eqb_neq _ _) Hab).
  destruct a as [|a0 [|a1 a]]; [|now contradiction Ha|];
    destruct b as [|b0 [|b1 b]]; try reflexivity; now contradiction Hb.
Qed.

(** X7: a sequence with more tokens than the table of positional encodings
    has rows makes the forward pass raise (a table with a single row is
    broadcast instead, hence at least 2 rows). *)
Theorem forward_too_long :
  forall (m : DecoderTransformer.t) (token_ids : list nat),
    (2 <= length (DecoderTransformer.pe m))%nat ->
    (length (DecoderTransformer.pe m) < length token_ids)%nat ->
    DecoderTransformer.forward m token_ids = None.
Proof.
  intros m token_ids Hpe Hlen.
  unfold DecoderTransformer.forward.
  destruct (embedding (DecoderTransformer.we m) token_ids) as [x|] eqn:Hx;
    [|reflexivity].
  cbn [bind].
  apply traverse_length in Hx.
  assert (Hadd : PositionEncoding.forward (DecoderTransformer.pe m) x = None).
  { unfold PositionEncoding.forward.
    rewrite firstn_all2 by lia.
    apply add_rows_mismatch; lia. }
  now rewrite Hadd.
Qed.

(** X8: on a decoder of the shapes of
    [DecoderTransformer(num_tokens, d_model, max_len)], for tokens of the
    vocabulary and at most [max_len] of them, the forward pass returns: one
    row of [num_tokens] logits per token. *)
Theorem forward_returns_logits :
  forall (m : DecoderTransformer.t) (num_tokens d_model max_len : nat)
         (token_ids : list nat),
    Shapes.decoder_shape num_tokens d_model max_len m ->
    Forall (fun id => (id < num_tokens)%nat) token_ids ->
    (length token_ids <= max_len)%nat ->
    exists out : matrix,
      DecoderTransformer.forward m token_ids = Some out /\
      length out = length token_ids /\
      rows_of_width num_tokens out.
Proof.
  intros m num_tokens d_model max_len token_ids Hm Hids Hlen.
  eapply forward_defined_shape; eassumption.
Qed.
End ForwardErrors.

(** * Generation: what [predict] picks, and when it raises *)

Section PredictFacts.
Import Torch Predict.
Local Open Scope R_scope.

(** The scan of [argmax]: [best] holds the first greatest entry of the
    entries [seen] so far. *)
Lemma argmax_from_spec (l : vector) :
  forall (seen : vector) (best : nat) (best_value : R),
    nth_error seen best = Some best_value ->
    (forall j x, nth_error seen j = Some x ->
                 x <= best_value /\ ((j < best)%nat -> x < best_value)) ->
    exists v,
      nth_error (seen ++ l) (argmax_from best best_value (length seen) l) = Some v /\
      forall j x, nth_error (seen ++ l) j = Some x ->
        x <= v /\ ((j < argmax_from best best_value (length seen) l)%nat -> x < v).
Proof.
  induction l as [|y l IH]; intros seen best bv Hbest Hmax.
  - simpl; rewrite app_nil_r; exists bv; auto.
  - cbn [argmax_from].
    replace (seen ++ y :: l) with ((seen ++ [y]) ++ l)
      by (rewrite <- app_assoc; reflexivity).
    replace (S (length seen)) with (length (seen ++ [y]))
      by (rewrite length_app; simpl; lia).
    assert (Hy : nth_error (seen ++ [y]) (length seen) = Some y).
    { rewrite nth_error_app2 by lia; now rewrite Nat.sub_diag. }
    destruct (Rlt_dec bv y) as [Hlt|Hge].
    + apply IH; [exact Hy|].
      intros j x Hj.
      destruct (Nat.lt_ge_cases j (length seen)) as [Hjs|Hjs].
      * rewrite nth_error_app1 in Hj by exact Hjs.
        destruct (Hmax j x Hj) as (Hle & _); split; intros; lra.
      * rewrite nth_error_app2 in Hj by exact Hjs.
        destruct (j - length seen)%nat as [|k] eqn:Hk; simpl in Hj.
        -- injection Hj as <-; split; [lra | intros; lia].
        -- destruct k; discriminate.
    + apply IH.
      * rewrite nth_error_app1; [exact Hbest|].
        apply nth_error_Some; congruence.
      * intros j x Hj.
        destruct (Nat.lt_ge_cases j (length seen)) as [Hjs|Hjs].
        -- rewrite nth_error_app1 in Hj by exact Hjs; auto.
        -- rewrite nth_error_app2 in Hj by exact Hjs.
           assert (Hb : (best < length seen)%nat)
             by (apply nth_error_Some; congruence).
           destruct (j - length seen)%nat as [|k] eqn:Hk; simpl in Hj.
           ++ injection Hj as <-; split; [lra | intros; lia].
           ++ destruct k; discriminate.
Qed.

(** [argmax] returns the position of the first greatest entry. *)
Lemma argmax_spec (l : vector) (k : nat) :
  argmax l = Some k ->
  exists v,
    nth_error l k = Some v /\
    forall j x, nth_error l j = Some x -> x <= v /\ ((j < k)%nat -> x < v).
Proof.
  destruct l as [|x0 l]; [discriminate|].
  unfold argmax; intros [= <-].
  apply (@argmax_from_spec l [x0] 0%nat x0); [reflexivity|].
  intros [|j] x Hj; simpl in Hj.
  - injection Hj as <-; split; [lra | intros; lia].
  - destruct j; discriminate.
Qed.

Lemma argmax_defined (l : vector) : l <> [] -> argmax l <> None.
Proof. destruct l; [congruence | discriminate]. Qed.

Lemma argmax_last_row (predictions : matrix) (tok : nat) :
  argmax_last predictions = Some tok ->
  predictions <> [] /\ argmax (last predictions []) = Some tok.
Proof.
  destruct predictions as [|r rs]; [discriminate|].
  unfold argmax_last; intros H; split; [discriminate | exact H].
Qed.

Lemma predicts_in_range (m : DecoderTransformer.t) (input : list nat) (tok : nat) :
  predicts m input tok ->
  (tok < length (weight (DecoderTransformer.fc_layer m)))%nat.
Proof.
  intros (predictions & Hfwd & Htok).
  destruct (argmax_last_row _ Htok) as (Hne & Harg).
  destruct (argmax_spec _ Harg) as (v & Hv & _).
  pose proof (forward_output_width _ _ Hfwd) as Hwidth.
  assert (Hin : In (last predictions []) predictions).
  { destruct (exists_last Hne) as (front & lastrow & Heq).
    rewrite Heq, last_last; apply in_or_app; right; now left. }
  rewrite <- (@rows_of_width_In _ _ predictions _ Hwidth Hin).
  apply nth_error_Some; congruence.
Qed.

(** X9: the token [predict] takes from a forward pass is a valid token id
    of the model (below the number of rows of the weight of [fc_layer]),
    and it is the first position of the greatest logit in the last row:
    no logit there is greater, and every earlier one is smaller. *)
Theorem predicted_token_is_first_maximum :
  forall (m : DecoderTransformer.t) (input : list nat) (tok : nat),
    predicts m input tok ->
    (tok < length (weight (DecoderTransformer.fc_layer m)))%nat /\
    exists (predictions : matrix) (v : R),
      DecoderTransformer.forward m input = Some predictions /\
      nth_error (last predictions []) tok = Some v /\
      forall j x, nth_error (last predictions []) j = Some x ->
        x <= v /\ ((j < tok)%nat -> x < v).
Proof.
  intros m input tok Hp.
  split; [eapply predicts_in_range; eassumption|].
  destruct Hp as (predictions & Hfwd & Htok).
  destruct (argmax_last_row _ Htok) as (_ & Harg).
  destruct (argmax_spec _ Harg) as (v & Hv & Hmax).
  exists predictions, v; auto.
Qed.
End PredictFacts.

Section PredictRuns.
Import Torch Predict.
Local Open Scope nat_scope.

(** X10: on the empty seed [predict] raises after its first forward pass:
    the pass returns no row, and there is no last position to read. *)
Theorem predict_empty_seed :
  forall m : DecoderTransformer.t,
    outcome m [] = None /\ passes m [] = [[]].
Proof.
  intros m; unfold outcome, passes.
  rewrite predicted_ids_unfold, forward_nil; split; reflexivity.
Qed.

(** X11: a seed that already has [max_length] tokens or more gets one
    forward pass and no loop iteration: at most one token is predicted. *)
Theorem predict_full_seed :
  forall (m : DecoderTransformer.t) (seed : list nat),
    max_length <= length seed ->
    passes m seed = [seed] /\
    forall ids : list nat,
      outcome m seed = Some ids ->
      exists tok : nat, ids = [tok] /\ predicts m seed tok.
Proof.
  intros m seed Hlen; unfold outcome, passes.
  rewrite predicted_ids_unfold.
  replace (max_length - length seed) with 0 by lia.
  destruct (DecoderTransformer.forward m seed) as [predictions|] eqn:Hfwd;
    [|split; [reflexivity | discriminate]].
  destruct (argmax_last predictions) as [pid|] eqn:Hpid;
    [|split; [reflexivity | discriminate]].
  split; [reflexivity|].
  intros ids [= <-]; exists pid; split; [reflexivity|].
  exists predictions; auto.
Qed.

Lemma argmax_last_defined (predictions : matrix) (n : nat) :
  predictions <> [] -> rows_of_width (S n) predictions ->
  argmax_last predictions <> None.
Proof.
  intros Hne Hw.
  destruct (exists_last Hne) as (front & lastrow & Heq).
  assert (Hlast : length lastrow = S n).
  { apply (@rows_of_width_In _ (S n) predictions); [exact Hw|].
    rewrite Heq; apply in_or_app; right; now left. }
  destruct predictions as [|r rs]; [congruence|].
  unfold argmax_last; rewrite Heq, last_last.
  apply argmax_defined; intros ->; discriminate.
Qed.

(** The loop never raises on a decoder of the shapes of the class when the
    inputs stay within the vocabulary and the positions. *)
Lemma generate_defined (m : DecoderTransformer.t) (num_tokens d_model max_len : nat) :
  Shapes.decoder_shape num_tokens d_model max_len m ->
  forall (range : list nat) (input : list nat) (pid : nat) (pids : list nat)
         (log : list (list nat)),
    Forall (fun id => id < num_tokens) input ->
    pid < num_tokens ->
    Forall (fun id => id < num_tokens) pids ->
    length input + length range <= max_len ->
    exists ids,
      fst (generate m range input pid pids log) = Some ids /\
      Forall (fun id => id < num_tokens) ids.
Proof.
  intros Hm; induction range as [|i range IH];
    intros input pid pids log Hinput Hpid Hpids Hlen.
  - exists pids; split; [reflexivity | exact Hpids].
  - rewrite generate_cons.
    destruct (pid =? 4); [exists pids; split; [reflexivity | exact Hpids]|].
    assert (Hinput' : Forall (fun id => id < num_tokens) (input ++ [pid])).
    { apply Forall_app; split; [exact Hinput | now constructor]. }
    destruct (@forward_defined_shape m num_tokens d_model max_len (input ++ [pid])
                Hm Hinput') as (predictions & Hfwd & Hrows & Hwidth).
    { rewrite length_app; simpl in *; lia. }
    rewrite Hfwd.
    assert (Hne : predictions <> []).
    { intros ->; rewrite length_app in Hrows; simpl in Hrows; lia. }
    destruct num_tokens as [|n]; [lia|].
    destruct (argmax_last predictions) as [tok|] eqn:Htok;
      [|now apply (argmax_last_defined Hne Hwidth) in Htok].
    assert (Htok' : tok < S n).
    { assert (Hp : predicts m (input ++ [pid]) tok) by (exists predictions; auto).
      apply predicts_in_range in Hp.
      destruct Hm as (_ & _ & _ & _ & _ & (Hfc & _)).
      now rewrite Hfc in Hp. }
    apply IH; auto.
    + apply Forall_app; split; [exact Hpids | now constructor].
    + rewrite length_app; simpl in *; lia.
Qed.

(** The generation returns on a decoder of the shapes of the class, from a
    non-empty seed within the vocabulary and the positions. *)
Lemma outcome_defined :
  forall (m : DecoderTransformer.t) (num_tokens d_model max_len : nat)
         (seed : list nat),
    Shapes.decoder_shape num_tokens d_model max_len m ->
    max_length <= max_len ->
    seed <> [] ->
    Forall (fun id => id < num_tokens) seed ->
    length seed <= max_length ->
    exists ids : list nat,
      outcome m seed = Some ids /\
      ids <> [] /\
      Forall (fun id => id < num_tokens) ids.
Proof.
  intros m num_tokens d_model max_len seed Hm Hmax Hne Hseed Hlen.
  unfold outcome; rewrite predicted_ids_unfold.
  destruct (@forward_defined_shape m num_tokens d_model max_len seed Hm Hseed)
    as (predictions & Hfwd & Hrows & Hwidth); [lia|].
  rewrite Hfwd.
  assert (Hpne : predictions <> []).
  { intros ->; destruct seed; [congruence | discriminate]. }
  assert (Hnt : 0 < num_tokens).
  { destruct seed as [|id seed]; [congruence|].
    inversion Hseed; subst; lia. }
  destruct num_tokens as [|n]; [lia|].
  destruct (argmax_last predictions) as [pid|] eqn:Hpid;
    [|now apply (argmax_last_defined Hpne Hwidth) in Hpid].
  assert (Hpid' : pid < S n).
  { assert (Hp : predicts m seed pid) by (exists predictions; auto).
    apply predicts_in_range in Hp.
    destruct Hm as (_ & _ & _ & _ & _ & (Hfc & _)).
    now rewrite Hfc in Hp. }
  destruct (@generate_defined m (S n) d_model max_len Hm
              (seq (length seed) (max_length - length seed)) seed pid [pid] [seed]
              Hseed Hpid' ltac:(now constructor))
    as (ids & Hids & Hvocab).
  { rewrite length_seq; lia. }
  exists ids; split; [exact Hids|].
  split; [|exact Hvocab].
  assert (Hp : predicts m seed pid) by (exists predictions; auto).
  destruct (@generate_spec m (seq (length seed) (max_length - length seed))
              seed pid [pid] [seed] Hp) as (new & _ & _ & _ & Hspec).
  destruct (Hspec ids Hids) as (newids & -> & _); discriminate.
Qed.

(** X12: on a decoder of the shapes of
    [DecoderTransformer(num_tokens, d_model, max_len)] whose table of
    positions covers [max_length], from a non-empty seed of tokens of the
    vocabulary and at most [max_length] of them, the generation never
    raises: it returns at least one predicted id, all of the vocabulary. *)
Theorem predict_never_raises :
  forall (m : DecoderTransformer.t) (num_tokens d_model max_len : nat)
         (seed : list nat),
    Shapes.decoder_shape num_tokens d_model max_len m ->
    max_length <= max_len ->
    seed <> [] ->
    Forall (fun id => id < num_tokens) seed ->
    length seed <= max_length ->
    exists ids : list nat,
      outcome m seed = Some ids /\
      ids <> [] /\
      Forall (fun id => id < num_tokens) ids.
Proof.
  intros m num_tokens d_model max_len seed Hm Hmax Hne Hseed Hlen.
  eapply outcome_defined; eassumption.
Qed.

Lemma getitem_id_to_token (id : nat) :
  (id < 5 ->
   exists tok, getitem Nat.eqb id_to_token id = Some tok /\
               getitem String.eqb token_to_id tok = Some id) /\
  (5 <= id -> getitem Nat.eqb id_to_token id = None).
Proof.
  split.
  - intros Hid.
    destruct id as [|[|[|[|[|id]]]]]; try lia;
      eexists; split; reflexivity.
  - intros Hid.
    do 5 (destruct id as [|id]; [lia|]); reflexivity.
Qed.

(** X13: the printing loop of [predict] after a generation that returned
    [ids]: it prints one token per id, each the name of its id in
    [token_to_id], when every id is below 5; an id from 5 on is a KeyError. *)
Theorem predict_prints_names :
  forall (m : DecoderTransformer.t) (seed ids : list nat),
    outcome m seed = Some ids ->
    (Forall (fun id => id < 5) ids ->
     exists tokens : list string,
       fst (predict m seed []) = Some tokens /\
       Forall2 (fun id tok => getitem String.eqb token_to_id tok = Some id)
               ids tokens) /\
    ((exists id, In id ids /\ 5 <= id) -> fst (predict m seed []) = None).
Proof.
  intros m seed ids Hids.
  unfold outcome in Hids.
  unfold predict, bindM.
  destruct (predicted_ids m seed []) as [[ids'|] log] eqn:Hrun;
    simpl in Hids; [|discriminate].
  injection Hids as ->.
  unfold lift; cbn [fst].
  split.
  - intros Hall.
    destruct (traverse (getitem Nat.eqb id_to_token) ids) as [tokens|] eqn:Ht.
    + exists tokens; split; [reflexivity|].
      apply traverse_Forall2 in Ht.
      clear Hrun; induction Ht as [|id tok ids tokens Hid _ IH];
        constructor.
      * inversion Hall as [|? ? Hlt _]; subst.
        destruct (proj1 (getitem_id_to_token id) Hlt) as (tok' & Htok' & Hback).
        congruence.
      * apply IH; now inversion Hall.
    + exfalso; revert Ht; apply traverse_defined.
      intros id Hin; rewrite Forall_forall in Hall.
      destruct (proj1 (getitem_id_to_token id) (Hall id Hin)) as (tok & Htok & _).
      congruence.
  - intros (id & Hin & Hid).
    apply traverse_None with (a := id); [exact Hin|].
    now apply getitem_id_to_token.
Qed.
End PredictRuns.

(** * Generation: the loop of [predict] against its description *)

Section GenerationContract.
Import Torch Predict.
Local Open Scope R_scope.

Lemma first_maximum_unique (row : vector) (j k : nat) :
  Generation.first_maximum row j -> Generation.first_maximum row k -> j = k.
Proof.
  intros (v & Hv & Hmax) (w & Hw & Hmax').
  destruct (Nat.lt_trichotomy j k) as [Hlt|[Heq|Hlt]]; [|exact Heq|].
  - destruct (Hmax' j v Hv) as (_ & Hvw); specialize (Hvw Hlt).
    destruct (Hmax k w Hw) as (Hwv & _); lra.
  - destruct (Hmax k w Hw) as (_ & Hwv); specialize (Hwv Hlt).
    destruct (Hmax' j v Hv) as (Hvw & _); lra.
Qed.

(** What the code takes with [torch.argmax] is the next token of the
    description, and nothing else is. *)
Lemma predicts_next_token (m : DecoderTransformer.t) (input : list nat)
    (tok : nat) :
  predicts m input tok <-> Generation.next_token m input tok.
Proof.
  split.
  - intros (predictions & Hfwd & Htok).
    destruct (argmax_last_row _ Htok) as (Hne & Harg).
    exists predictions; split; [exact Hfwd|].
    split; [exact Hne|].
    exact (argmax_spec _ Harg).
  - intros (predictions & Hfwd & Hne & Hmax).
    exists predictions; split; [exact Hfwd|].
    destruct predictions as [|r rs]; [congruence|].
    unfold argmax_last.
    destruct (argmax (last (r :: rs) [])) as [k|] eqn:Harg.
    + f_equal.
      exact (first_maximum_unique (argmax_spec _ Harg) Hmax).
    + exfalso; revert Harg; apply argmax_defined.
      destruct Hmax as (v & Hv & _).
      intros Hnil; rewrite Hnil in Hv; destruct tok; discriminate.
Qed.

Lemma grows_extends (m : DecoderTransformer.t) (input next : list nat) :
  grows m input next -> Generation.extends m input next.
Proof.
  intros (tok & Hp & Hne & ->).
  exists tok; split; [now apply predicts_next_token|].
  split; [exact Hne | reflexivity].
Qed.

Lemma Sorted_weaken {A : Type} (P Q : A -> A -> Prop) (l : list A) :
  (forall a b : A, P a b -> Q a b) -> Sorted P l -> Sorted Q l.
Proof.
  intros HPQ; induction 1 as [|a l Hl IH Hd]; constructor.
  - exact IH.
  - destruct Hd; constructor; auto.
Qed.

(** C5: from a seed of at most 6 tokens, [predict] makes one forward pass
    on the seed and then at most [max_length - input_length] more, each a
    full pass on the previous input grown by its next token, the first
    index of the greatest logit at the last position, and only after a
    token that is not <EOS>.  When it returns it has one predicted id per
    pass, each the next token of that pass, no id before the last is <EOS>,
    and the last id is <EOS> or the sequence has reached [max_length]:
    the loop stops at <EOS> or at 6 tokens, and not before.  It raises only
    when its last pass has no next token: the model raised on that input
    or returned no logits there. *)
Theorem predict_generation_loop :
  forall (model : DecoderTransformer.t) (seed : list nat),
    (length seed <= max_length)%nat ->
    exists new : list (list nat),
      passes model seed = seed :: new /\
      (length new <= max_length - length seed)%nat /\
      Sorted (Generation.extends model) (seed :: new) /\
      (forall ids : list nat,
         outcome model seed = Some ids ->
         Forall2 (Generation.next_token model) (seed :: new) ids /\
         Forall (fun tok => tok <> Generation.end_of_sequence) (removelast ids) /\
         (last ids 0%nat = Generation.end_of_sequence \/
          (length seed + length new)%nat = max_length)) /\
      (outcome model seed = None ->
       forall tok : nat,
         ~ Generation.next_token model (last (seed :: new) seed) tok).
Proof.
  intros model seed Hseed.
  destruct (predicted_ids_spec model seed Hseed)
    as (new & Hlog & Hlen & Hsorted & Hids).
  exists new.
  split; [exact Hlog|].
  split; [exact Hlen|].
  split; [exact (@Sorted_weaken _ _ _ _ (@grows_extends model) Hsorted)|].
  split.
  - intros ids Hres.
    destruct (Hids ids Hres) as (Hall & Hfront & Hlast).
    split; [|split; assumption].
    revert Hall; apply Forall2_impl.
    intros input tok; apply predicts_next_token.
  - intros Hnone tok Hnext.
    apply predicts_next_token in Hnext.
    exact (@predicted_ids_raises model seed new Hlog Hnone tok Hnext).
Qed.
End GenerationContract.

(** * Attention weights: the causal mask, and what row i depends on *)

Section AttentionWeights.
Import Torch.
Local Open Scope R_scope.

(** X15: the causal mask of length n is an n by n matrix whose entry
    (i, j) is true exactly when j > i: position i may attend to j only if
    j <= i. *)
Theorem causal_mask_above_diagonal :
  forall n : nat,
    length (DecoderTransformer.causal_mask n) = n /\
    forall i j : nat,
      (i < n)%nat -> (j < n)%nat ->
      exists row : list bool,
        nth_error (DecoderTransformer.causal_mask n) i = Some row /\
        length row = n /\
        nth_error row j = Some (i <? j)%nat.
Proof.
  intros n; split; [apply causal_mask_shape|].
  intros i j Hi Hj.
  rewrite causal_mask_entries.
  exists (map (fun j => (i <? j)%nat) (seq 0 n)).
  split.
  - rewrite nth_error_map.
    rewrite nth_error_nth' with (d := 0%nat) by (now rewrite length_seq).
    now rewrite seq_nth.
  - split; [now rewrite length_map, length_seq|].
    rewrite nth_error_map.
    rewrite nth_error_nth' with (d := 0%nat) by (now rewrite length_seq).
    now rewrite seq_nth.
Qed.
End AttentionWeights.

Section WeightsCausality.
Import Torch.
Local Open Scope R_scope.

Lemma nth_error_firstn_lt {A : Type} (n i : nat) (l : list A) :
  (i < n)%nat -> nth_error (firstn n l) i = nth_error l i.
Proof.
  revert i l; induction n as [|n IH]; intros i l Hi; [lia|].
  destruct l as [|x l]; [reflexivity|].
  destruct i as [|i]; [reflexivity|].
  simpl; apply IH; lia.
Qed.

Lemma combine_map_map {A B C D : Type} (g : A -> C) (h : B -> D)
    (l : list A) (l' : list B) :
  combine (map g l) (map h l') =
  map (fun p => (g (fst p), h (snd p))) (combine l l').
Proof.
  revert l'; induction l as [|a l IH]; intros [|b l']; simpl;
    try reflexivity.
  now rewrite IH.
Qed.

Lemma masked_fill_row (scale scaled : matrix) (n i : nat) (r : vector) :
  length scale = n -> rows_of_width n scale ->
  masked_fill scale (DecoderTransformer.causal_mask n) Attention.mask_value
    = Some scaled ->
  nth_error scale i = Some r ->
  nth_error scaled i =
  Some (map (fun p => if (i <? snd p)%nat then Attention.mask_value else fst p)
            (combine r (seq 0 n))).
Proof.
  intros Hlen Hrows Hfill Hr.
  destruct (causal_mask_shape n) as (Hml & Hmr).
  unfold masked_fill in Hfill.
  rewrite zip_broadcast_same in Hfill by (now rewrite Hml).
  assert (Hi : (i < n)%nat) by (rewrite <- Hlen; apply nth_error_Some; congruence).
  assert (Hmask : nth_error (DecoderTransformer.causal_mask n) i =
                  Some (map (fun j => (i <? j)%nat) (seq 0 n))).
  { rewrite causal_mask_entries, nth_error_map.
    rewrite nth_error_nth' with (d := 0%nat) by (now rewrite length_seq).
    now rewrite seq_nth. }
  destruct (traverse_nth_error _ _ _ Hfill (nth_error_combine _ _ _ Hr Hmask))
    as (row & Hrow & Hzip).
  rewrite Hrow; f_equal.
  cbn [fst snd] in Hzip.
  rewrite zip_broadcast_same in Hzip.
  - rewrite traverse_total in Hzip; injection Hzip as <-.
    rewrite <- (map_id r) at 1.
    rewrite combine_map_map, map_map; reflexivity.
  - rewrite length_map, length_seq.
    apply (@rows_of_width_In _ n scale); [exact Hrows|].
    eapply nth_error_In; eassumption.
Qed.

(** Row [i] of the weights of self-attention under the causal mask, from
    the encoding at [i] and the keys. *)
Lemma self_attention_row (self : Attention.t) (x P out : matrix) (i : nat) (x_i : vector) :
  Attention.forward_locals self x x x
    (Some (DecoderTransformer.causal_mask (length x))) = Some (P, out) ->
  nth_error x i = Some x_i ->
  exists (k : matrix) (q_i sims_i : vector),
    linear (Attention.W_k self) x = Some k /\
    linear_row (Attention.W_q self) x_i = Some q_i /\
    traverse (fun k_j => dot q_i k_j) k = Some sims_i /\
    nth_error P i =
    Some (softmax_row
            (Masking.masked_row (sqrt (INR (length (weight (Attention.W_k self)))))
               i (length x) sims_i)).
Proof.
  intros Hf Hxi.
  destruct (forward_locals_inv _ _ _ _ _ Hf)
    as (q & k & sims & scaled & Hq & Hk & Hsims & Hscaled & ->).
  destruct (traverse_nth_error _ _ _ Hq Hxi) as (q_i & Hqi & Hrow).
  destruct (traverse_nth_error _ _ _ Hsims Hqi) as (sims_i & Hsi & Hdots).
  exists k, q_i, sims_i.
  split; [exact Hk|].
  split; [exact Hrow|].
  split; [exact Hdots|].
  pose proof (linear_length _ _ Hq) as Hql.
  pose proof (linear_length _ _ Hk) as Hkl.
  destruct (matmul_transposed_shape _ _ Hsims) as (Hls & Hrs).
  set (c := sqrt (INR (length (weight (Attention.W_k self))))) in *.
  set (scale := map (map (fun s : R => s / c)) sims) in Hscaled.
  assert (Hscale_i : nth_error scale i = Some (map (fun s => s / c) sims_i)).
  { subst scale; rewrite nth_error_map, Hsi; reflexivity. }
  assert (Hshape : length scale = length x /\ rows_of_width (length x) scale).
  { subst scale; split.
    - rewrite length_map; exact (eq_trans Hls Hql).
    - apply Forall_forall; intros row Hin.
      apply in_map_iff in Hin as (r & <- & Hr).
      rewrite length_map.
      rewrite Forall_forall in Hrs; rewrite (Hrs _ Hr); exact Hkl. }
  destruct Hshape as (Hscl & Hscw).
  pose proof (@masked_fill_row scale scaled (length x) i _ Hscl Hscw Hscaled Hscale_i)
    as Hmasked.
  apply (f_equal (option_map softmax_row)) in Hmasked.
  unfold softmax; rewrite nth_error_map.
  etransitivity; [exact Hmasked|].
  cbn [option_map]; f_equal; f_equal.
  unfold Masking.masked_row.
  rewrite <- (map_id (seq 0 (length x))) at 1.
  rewrite combine_map_map, map_map; reflexivity.
Qed.

Lemma masked_entries_agree (c : R) (i : nat) :
  forall (m a : nat) (l l' : vector),
    length l = length l' ->
    (forall pos, (a + pos <= i)%nat -> nth_error l pos = nth_error l' pos) ->
    map (fun p => if (i <? snd p)%nat then Attention.mask_value else fst p / c)
        (combine l (seq a m)) =
    map (fun p => if (i <? snd p)%nat then Attention.mask_value else fst p / c)
        (combine l' (seq a m)).
Proof.
  induction m as [|m IH]; intros a l l' Hlen Hagree.
  - destruct l, l'; reflexivity.
  - destruct l as [|y l], l' as [|y' l']; try discriminate; [reflexivity|].
    cbn [seq combine map fst snd].
    f_equal.
    + destruct (Nat.ltb_spec i a) as [Hia|Hia]; [reflexivity|].
      specialize (Hagree 0%nat ltac:(lia)); simpl in Hagree.
      now injection Hagree as ->.
    + apply IH; [now injection Hlen|].
      intros pos Hpos; apply (Hagree (S pos)); lia.
Qed.

(** Two rows of similarities that agree up to [i] give the same masked row. *)
Lemma masked_row_agree (c : R) (i n : nat) (s s' : vector) :
  length s = length s' ->
  (forall j, (j <= i)%nat -> nth_error s j = nth_error s' j) ->
  Masking.masked_row c i n s = Masking.masked_row c i n s'.
Proof.
  intros Hlen Hagree; unfold Masking.masked_row.
  apply masked_entries_agree; [exact Hlen|].
  intros pos Hpos; apply Hagree; lia.
Qed.
End WeightsCausality.

Section WeightsCausalityMain.
Import Torch.
Local Open Scope R_scope.

Lemma self_attention_weights_length (self : Attention.t) (x P out : matrix) :
  Attention.forward_locals self x x x
    (Some (DecoderTransformer.causal_mask (length x))) = Some (P, out) ->
  length P = length x.
Proof.
  intros Hf.
  destruct (forward_locals_inv _ _ _ _ _ Hf)
    as (q & k & sims & scaled & Hq & Hk & Hsims & Hscaled & ->).
  apply linear_length in Hq, Hk.
  destruct (matmul_transposed_shape _ _ Hsims) as (Hls & Hrs).
  set (scale := map (map (fun s : R => s / _)) sims) in Hscaled.
  assert (Hscl : length scale = length x)
    by (subst scale; rewrite length_map; exact (eq_trans Hls Hq)).
  assert (Hscr : Forall (fun row => length row = length x) scale).
  { subst scale; apply Forall_forall; intros row Hin.
    apply in_map_iff in Hin as (r & <- & Hr).
    rewrite length_map.
    rewrite Forall_forall in Hrs; rewrite (Hrs _ Hr); exact Hk. }
  destruct (causal_mask_shape (length x)) as (Hml & Hmr).
  destruct (@masked_fill_same_shape scale _ _ (length x) scaled
              (eq_trans Hscl (eq_sym Hml)) Hscr Hmr Hscaled) as (Hl & _).
  unfold softmax; rewrite length_map; exact (eq_trans Hl Hscl).
Qed.

(** The similarities of position [i] to the positions up to [i] are the
    same in two runs whose encodings agree up to [i]. *)
Lemma similarities_agree (w : Linear) (x x' k k' : matrix) (q_i s s' : vector) (i : nat) :
  (forall j, (j <= i)%nat -> nth_error x j = nth_error x' j) ->
  linear w x = Some k -> linear w x' = Some k' ->
  traverse (fun k_j => dot q_i k_j) k = Some s ->
  traverse (fun k_j => dot q_i k_j) k' = Some s' ->
  forall j, (j <= i)%nat -> nth_error s j = nth_error s' j.
Proof.
  unfold matrix, vector in *.
  intros Hagree Hk Hk' Hs Hs' j Hj.
  specialize (Hagree j Hj).
  pose proof (linear_length _ _ Hk) as Hkl.
  pose proof (linear_length _ _ Hk') as Hkl'.
  pose proof (traverse_length _ _ Hs) as Hsl.
  pose proof (traverse_length _ _ Hs') as Hsl'.
  destruct (nth_error x j) as [x_j|] eqn:Hxj.
  - symmetry in Hagree.
    destruct (traverse_nth_error _ _ _ Hk Hxj) as (k_j & Hkj & Hrow).
    destruct (traverse_nth_error _ _ _ Hk' Hagree) as (k_j' & Hkj' & Hrow').
    assert (k_j' = k_j) by congruence; subst k_j'.
    destruct (traverse_nth_error _ _ _ Hs Hkj) as (d & Hd & Hdot).
    destruct (traverse_nth_error _ _ _ Hs' Hkj') as (d' & Hd' & Hdot').
    rewrite Hd, Hd'; congruence.
  - symmetry in Hagree.
    apply nth_error_None in Hxj, Hagree.
    assert (H1 : nth_error s j = None)
      by (apply nth_error_None; rewrite Hsl, Hkl; exact Hxj).
    assert (H2 : nth_error s' j = None)
      by (apply nth_error_None; rewrite Hsl', Hkl'; exact Hagree).
    now rewrite H1, H2.
Qed.

(** X16: under the causal mask the attention weights of position i depend
    only on the encodings up to i and on the length: two runs of
    self-attention on sequences of one length that agree on the positions
    0..i have the same row i of weights.  (The masked entries are the
    constant 1e-9 before softmax, whatever the later encodings are.) *)
Theorem attention_weights_causal :
  forall (self : Attention.t) (x x' : matrix) (i : nat)
         (attention_percents out attention_percents' out' : matrix),
    length x = length x' ->
    firstn (S i) x = firstn (S i) x' ->
    Attention.forward_locals self x x x
      (Some (DecoderTransformer.causal_mask (length x)))
      = Some (attention_percents, out) ->
    Attention.forward_locals self x' x' x'
      (Some (DecoderTransformer.causal_mask (length x')))
      = Some (attention_percents', out') ->
    nth_error attention_percents i = nth_error attention_percents' i.
Proof.
  unfold matrix, vector in *.
  intros self x x' i P out P' out' Hlen Hfirst Hf Hf'.
  assert (Hagree : forall j, (j <= i)%nat -> nth_error x j = nth_error x' j).
  { intros j Hj.
    rewrite <- (@nth_error_firstn_lt _ (S i) j x) by lia.
    rewrite <- (@nth_error_firstn_lt _ (S i) j x') by lia.
    now rewrite Hfirst. }
  pose proof (self_attention_weights_length _ _ Hf) as HP.
  pose proof (self_attention_weights_length _ _ Hf') as HP'.
  destruct (nth_error x i) as [x_i|] eqn:Hxi.
  - assert (Hxi' : nth_error x' i = Some x_i)
      by (rewrite <- (Hagree i (Nat.le_refl i)); exact Hxi).
    destruct (@self_attention_row self x P out i x_i Hf Hxi)
      as (k & q_i & s & Hk & Hq & Hs & Hrow).
    destruct (@self_attention_row self x' P' out' i x_i Hf' Hxi')
      as (k' & q_i' & s' & Hk' & Hq' & Hs' & Hrow').
    assert (q_i' = q_i) by congruence; subst q_i'.
    etransitivity; [exact Hrow|].
    etransitivity; [|symmetry; exact Hrow'].
    rewrite <- Hlen.
    f_equal; f_equal.
    apply masked_row_agree.
    + exact (eq_trans (traverse_length _ _ Hs)
               (eq_trans (linear_length _ _ Hk)
                  (eq_trans Hlen
                     (eq_sym (eq_trans (traverse_length _ _ Hs')
                                (linear_length _ _ Hk')))))).
    + eapply similarities_agree; eassumption.
  - assert (Hi : (length x <= i)%nat) by (now apply nth_error_None).
    assert (H1 : nth_error P i = None)
      by (apply nth_error_None; rewrite HP; exact Hi).
    assert (H2 : nth_error P' i = None)
      by (apply nth_error_None; rewrite HP', <- Hlen; exact Hi).
    now rewrite H1, H2.
Qed.
End WeightsCausalityMain.

(** * The table of positional encodings: its range *)

Section PositionEncodingRange.
Import Torch.
Local Open Scope R_scope.

Lemma assign_stride2_keeps (P : R -> Prop) (start : nat) (row src row' : vector) :
  P 0 -> Forall P row -> Forall P src ->
  PositionEncoding.assign_stride2 start row src = Some row' ->
  Forall P row'.
Proof.
  intros H0 Hrow Hsrc; unfold PositionEncoding.assign_stride2.
  set (slots := length (filter _ _)).
  intros Ha.
  apply bind_Some in Ha as (src' & Hsrc' & [= <-]).
  assert (Hsrc'' : Forall P src').
  { destruct (length src =? slots)%nat; [now injection Hsrc' as <-|].
    destruct src as [|s [|s' src]]; try discriminate.
    injection Hsrc' as <-.
    apply Forall_forall; intros e He.
    apply repeat_spec in He; subst e.
    now inversion Hsrc. }
  apply Forall_forall; intros e He.
  apply in_map_iff in He as ([j x] & <- & Hjx); cbn [fst snd].
  destruct (PositionEncoding.selected start j).
  - destruct (nth_in_or_default (Nat.div2 (j - start)) src' 0) as [Hin| ->];
      [|exact H0].
    rewrite Forall_forall in Hsrc''; now apply Hsrc''.
  - rewrite Forall_forall in Hrow; apply Hrow.
    eapply in_combine_r; eassumption.
Qed.

Lemma assign_columns_keeps (P : R -> Prop) (start : nat) (pe src pe' : matrix) :
  P 0 -> Forall (Forall P) pe -> Forall (Forall P) src ->
  PositionEncoding.assign_columns start pe src = Some pe' ->
  Forall (Forall P) pe'.
Proof.
  intros H0 Hpe Hsrc Ha.
  apply Forall_forall; intros row' Hrow'.
  destruct (assign_columns_rows _ _ _ row' Ha Hrow') as (row & s & Hrow & Hs & Hassign).
  rewrite Forall_forall in Hpe, Hsrc.
  apply (@assign_stride2_keeps P start row s row' H0 (Hpe row Hrow) (Hsrc s Hs) Hassign).
Qed.

Lemma angles_image (f : R -> R) (P : R -> Prop) (d_model max_len : nat) :
  (forall a, P (f a)) ->
  Forall (Forall P) (map (map f) (PositionEncoding.angles d_model max_len)).
Proof.
  intros Hf.
  apply Forall_forall; intros row Hrow.
  apply in_map_iff in Hrow as (r & <- & _).
  apply Forall_forall; intros e He.
  apply in_map_iff in He as (a & <- & _).
  apply Hf.
Qed.

(** X17: every entry of the table of positional encodings lies between -1
    and 1, whatever [d_model] and [max_len]. *)
Theorem position_table_bounded :
  forall (d_model max_len : nat) (pe : matrix),
    PositionEncoding.init d_model max_len = Some pe ->
    Forall (Forall (fun e => -1 <= e <= 1)) pe.
Proof.
  intros d_model max_len pe; unfold PositionEncoding.init; intros Hinit.
  apply bind_Some in Hinit as (pe1 & H1 & Hinit).
  apply bind_Some in Hinit as (pe2 & H2 & [= ->]).
  assert (H0 : -1 <= 0 <= 1) by lra.
  eapply assign_columns_keeps; [exact H0 | | | exact H2].
  - eapply assign_columns_keeps; [exact H0 | | | exact H1].
    + apply Forall_forall; intros row Hrow.
      apply repeat_spec in Hrow; subst row.
      apply Forall_forall; intros e He.
      apply repeat_spec in He; subst e; exact H0.
    + apply angles_image; apply SIN_bound.
  - apply angles_image; apply COS_bound.
Qed.
End PositionEncodingRange.

Section PositionEncodingOdd.
Import Torch.
Local Open Scope R_scope.

Lemma assign_stride2_mismatch (start : nat) (row src : vector) :
  length src <>
  length (filter (PositionEncoding.selected start) (seq 0 (length row))) ->
  length src <> 1%nat ->
  PositionEncoding.assign_stride2 start row src = None.
Proof.
  intros Hslots Hone; unfold PositionEncoding.assign_stride2.
  rewrite (proj2 (Nat.eqb_neq _ _) Hslots).
  destruct src as [|s [|s' src]]; try reflexivity.
  now contradiction Hone.
Qed.

Lemma half_odd (d : nat) : Nat.odd d = true -> Nat.div2 (S d) = S (Nat.div2 d).
Proof.
  intros Hd; apply Nat.odd_spec in Hd as (k & ->).
  replace (2 * k + 1)%nat with (S (2 * k)) by lia.
  change (Nat.div2 (S (S (2 * k)))) with (S (Nat.div2 (2 * k))).
  now rewrite Nat.div2_succ_double, Nat.div2_double.
Qed.

(** X18: with an odd [d_model] of 3 or more (and at least one position)
    the constructor of [PositionEncoding] raises: the cosines are one
    column too many for the odd columns of the table. *)
Theorem position_table_odd_width_raises :
  forall d_model max_len : nat,
    Nat.odd d_model = true -> (3 <= d_model)%nat -> (1 <= max_len)%nat ->
    PositionEncoding.init d_model max_len = None.
Proof.
  intros d m Hodd Hd Hm.
  unfold PositionEncoding.init.
  destruct (PositionEncoding.assign_columns 0 _ _) as [pe1|] eqn:H1;
    [|reflexivity].
  cbn [bind].
  assert (Hnone : PositionEncoding.assign_columns 1 pe1
                    (map (map cos) (PositionEncoding.angles d m)) = None).
  { destruct (assign_columns_spec _ _ _ H1) as (Hl1 & _).
    rewrite repeat_length in Hl1.
    unfold PositionEncoding.assign_columns.
    rewrite angles_length, Hl1, Nat.eqb_refl.
    destruct pe1 as [|row1 pe1]; [simpl in Hl1; lia|].
    destruct (map (map cos) (PositionEncoding.angles d m)) as [|c cs] eqn:Hc.
    { apply (f_equal (@length _)) in Hc.
      rewrite angles_length in Hc; simpl in Hc; lia. }
    assert (Hrow1 : length row1 = d).
    { destruct (assign_columns_rows _ _ _ row1 H1 (or_introl eq_refl))
        as (row0 & s0 & Hrow0 & _ & Ha0).
      apply repeat_spec in Hrow0; subst row0.
      destruct (assign_stride2_spec _ _ _ Ha0) as (Hlen0 & _).
      now rewrite repeat_length in Hlen0. }
    assert (Hclen : length c = Nat.div2 (S d)).
    { apply (@angles_row_length cos d m); rewrite Hc; now left. }
    apply traverse_None with (a := (row1, c)); [now left|].
    cbn [fst snd].
    destruct (count_selected d) as (_ & Hc1).
    pose proof (half_odd d Hodd) as Hhalf.
    pose proof (Nat.div2_odd d) as Hdiv; rewrite Hodd in Hdiv; simpl Nat.b2n in Hdiv.
    apply assign_stride2_mismatch.
    - rewrite Hrow1, Hc1, Hclen, Hhalf; lia.
    - rewrite Hclen, Hhalf; lia. }
  now rewrite Hnone.
Qed.
End PositionEncodingOdd.

(** * The further properties at concrete inputs *)

Section MoreInstances.
Import Torch.
Local Open Scope R_scope.

Lemma example_attention_shape : Shapes.attention_shape 2 Example.attention.
Proof.
  unfold Shapes.attention_shape, Shapes.linear_shape, rows_of_width; simpl.
  repeat split; repeat constructor.
Qed.

Lemma example_decoder_shape : Shapes.decoder_shape 5 2 6 Example.model.
Proof.
  unfold Shapes.decoder_shape.
  split; [reflexivity|].
  split; [unfold rows_of_width; simpl; repeat constructor|].
  split; [reflexivity|].
  split; [unfold rows_of_width; simpl; repeat constructor|].
  split; [exact example_attention_shape|].
  unfold Shapes.linear_shape, rows_of_width; simpl.
  repeat split; repeat constructor.
Qed.

(** The token 7 is not in the vocabulary of the example decoder. *)
Lemma forward_unknown_token_example :
  DecoderTransformer.forward Example.model [0; 7]%nat = None.
Proof.
  apply (@forward_unknown_token Example.model [0; 7]%nat 7%nat).
  - right; left; reflexivity.
  - simpl; lia.
Defined.

(** Seven tokens are one more than the table of the example decoder has. *)
Lemma forward_too_long_example :
  DecoderTransformer.forward Example.model [0; 1; 2; 3; 0; 1; 2]%nat = None.
Proof.
  apply (@forward_too_long Example.model [0; 1; 2; 3; 0; 1; 2]%nat).
  - simpl; lia.
  - simpl; lia.
Defined.

(** The example decoder on "what is kael <EOS>": 4 rows of 5 logits. *)
Lemma forward_returns_logits_example :
  exists out : matrix,
    DecoderTransformer.forward Example.model [0; 1; 2; 4]%nat = Some out /\
    length out = length [0; 1; 2; 4]%nat /\
    rows_of_width 5 out.
Proof.
  apply (@forward_returns_logits Example.model 5 2 6 [0; 1; 2; 4]%nat
           example_decoder_shape).
  - repeat constructor.
  - simpl; lia.
Defined.

(** The token predicted by the example decoder from "what". *)
Lemma predicted_token_example :
  exists tok : nat,
    Predict.predicts Example.model [0]%nat tok /\
    (tok < length (weight (DecoderTransformer.fc_layer Example.model)))%nat /\
    exists (predictions : matrix) (v : R),
      DecoderTransformer.forward Example.model [0]%nat = Some predictions /\
      nth_error (last predictions []) tok = Some v /\
      forall j x, nth_error (last predictions []) j = Some x ->
        x <= v /\ ((j < tok)%nat -> x < v).
Proof.
  destruct (@forward_defined_shape Example.model 5 2 6 [0]%nat
              example_decoder_shape ltac:(repeat constructor) ltac:(simpl; lia))
    as (predictions & Hfwd & Hrows & Hwidth).
  assert (Hne : predictions <> []) by (intros ->; discriminate).
  destruct (Predict.argmax_last predictions) as [tok|] eqn:Htok.
  - assert (Hp : Predict.predicts Example.model [0]%nat tok)
      by (exists predictions; auto).
    exists tok; split; [exact Hp|].
    exact (@predicted_token_is_first_maximum Example.model [0]%nat tok Hp).
  - exfalso; exact (@argmax_last_defined predictions 4 Hne Hwidth Htok).
Defined.

(** A seed of six tokens: one forward pass. *)
Lemma predict_full_seed_example :
  Predict.passes Example.model [0; 1; 2; 3; 0; 1]%nat = [[0; 1; 2; 3; 0; 1]%nat] /\
  forall ids : list nat,
    Predict.outcome Example.model [0; 1; 2; 3; 0; 1]%nat = Some ids ->
    exists tok : nat,
      ids = [tok] /\ Predict.predicts Example.model [0; 1; 2; 3; 0; 1]%nat tok.
Proof.
  apply (@predict_full_seed Example.model [0; 1; 2; 3; 0; 1]%nat).
  unfold Predict.max_length; simpl; lia.
Defined.

(** The example decoder from the seed "what is kael <EOS>". *)
Lemma predict_never_raises_example :
  exists ids : list nat,
    Predict.outcome Example.model [0; 1; 2; 4]%nat = Some ids /\
    ids <> [] /\
    Forall (fun id => (id < 5)%nat) ids.
Proof.
  apply (@predict_never_raises Example.model 5 2 6 [0; 1; 2; 4]%nat
           example_decoder_shape).
  - unfold Predict.max_length; lia.
  - discriminate.
  - repeat constructor.
  - unfold Predict.max_length; simpl; lia.
Defined.

(** What the example decoder prints from the seed "what is kael <EOS>". *)
Lemma predict_prints_names_example :
  exists (ids : list nat) (tokens : list string),
    Predict.outcome Example.model [0; 1; 2; 4]%nat = Some ids /\
    fst (Predict.predict Example.model [0; 1; 2; 4]%nat []) = Some tokens /\
    Forall2 (fun id tok =>
               Predict.getitem String.eqb Predict.token_to_id tok = Some id)
            ids tokens.
Proof.
  destruct (@outcome_defined Example.model 5 2 6 [0; 1; 2; 4]%nat
              example_decoder_shape
              ltac:(unfold Predict.max_length; lia)
              ltac:(discriminate)
              ltac:(repeat constructor)
              ltac:(unfold Predict.max_length; simpl; lia))
    as (ids & Hids & _ & Hvocab).
  destruct (proj1 (@predict_prints_names Example.model [0; 1; 2; 4]%nat ids Hids) Hvocab)
    as (tokens & Hprint & Hnames).
  exists ids, tokens; auto.
Defined.

(** Two sequences of encodings that differ at position 1 only: the same
    weights in row 0. *)
Lemma attention_weights_causal_example :
  exists attention_percents out attention_percents' out' : matrix,
    Attention.forward_locals Example.attention
      [[0; 0]; [1; 1]] [[0; 0]; [1; 1]] [[0; 0]; [1; 1]]
      (Some (DecoderTransformer.causal_mask 2))
    = Some (attention_percents, out) /\
    Attention.forward_locals Example.attention
      [[0; 0]; [2; 3]] [[0; 0]; [2; 3]] [[0; 0]; [2; 3]]
      (Some (DecoderTransformer.causal_mask 2))
    = Some (attention_percents', out') /\
    nth_error attention_percents 0 = nth_error attention_percents' 0.
Proof.
  destruct (@self_attention_shape Example.attention [[0; 0]; [1; 1]] 2
              example_attention_shape ltac:(repeat constructor))
    as (P & out & Hrun & _).
  destruct (@self_attention_shape Example.attention [[0; 0]; [2; 3]] 2
              example_attention_shape ltac:(repeat constructor))
    as (P' & out' & Hrun' & _).
  exists P, out, P', out'.
  split; [exact Hrun|].
  split; [exact Hrun'|].
  exact (@attention_weights_causal Example.attention
           [[0; 0]; [1; 1]] [[0; 0]; [2; 3]] 0 P out P' out'
           eq_refl eq_refl Hrun Hrun').
Defined.

(** The table of the example decoder lies between -1 and 1. *)
Lemma position_table_bounded_example :
  Forall (Forall (fun e => -1 <= e <= 1)) Example.pe.
Proof.
  apply (@position_table_bounded 2 6 Example.pe).
  reflexivity.
Defined.

(** [PositionEncoding(d_model=3, max_len=6)] raises. *)
Lemma position_table_odd_width_raises_example :
  PositionEncoding.init 3 6 = None.
Proof.
  apply (@position_table_odd_width_raises 3 6).
  - reflexivity.
  - lia.
  - lia.
Defined.

(** The memories of the example LSTM after the four days of company A. *)
Lemma memory_stays_bounded_company_a :
  is_finite (fst (fold_left (LSTM.step Example.lstm) Example.company_a
                    (ts_zero, ts_zero))) /\
  Rabs (value (fst (fold_left (LSTM.step Example.lstm) Example.company_a
                      (ts_zero, ts_zero))))
    <= INR (length Example.company_a) /\
  is_finite (snd (fold_left (LSTM.step Example.lstm) Example.company_a
                    (ts_zero, ts_zero))) /\
  Rabs (value (snd (fold_left (LSTM.step Example.lstm) Example.company_a
                      (ts_zero, ts_zero))))
    <= 1.
Proof.
  apply (@memory_stays_bounded R RScalar ROrder RLaws
           Example.lstm Example.company_a).
  - unfold Finite.params; cbn; tauto.
  - repeat constructor.
  - intros k _; exact I.
Defined.

(** The prediction for company A, over the scalars with a NaN: finite and
    strictly between -1 and 1. *)
Lemma prediction_strictly_between_company_a :
  exists y : option R,
    LSTM.forward NaNExample.lstm NaNExample.company_a = Some y /\
    is_finite y /\
    Rabs (value y) <= tanh_bound /\
    -1 < value y < 1 /\
    value y <> 1.
Proof.
  apply (@prediction_strictly_between (option R) NaNScalar NaNOrder NaNLaws
           NaNExample.lstm NaNExample.company_a).
  - unfold Finite.params; cbn; repeat split; discriminate.
  - repeat constructor; discriminate.
  - reflexivity.
Defined.

(** With a NaN on the first day the prediction is NaN, for finite
    parameters: no real number strictly between -1 and 1. *)
Lemma prediction_nan_on_nan_input :
  length NaNExample.nan_first_day = 4%nat /\
  Finite.params NaNExample.lstm /\
  LSTM.forward NaNExample.lstm NaNExample.nan_first_day = Some None /\
  ~ (exists y : R,
       LSTM.forward NaNExample.lstm NaNExample.nan_first_day = Some (Some y) /\
       -1 < y < 1).
Proof.
  split; [reflexivity|].
  split; [unfold Finite.params; cbn; repeat split; discriminate|].
  split; [reflexivity|].
  intros (y & Hy & _); discriminate.
Qed.



(** Generation from the seed "what is kael <EOS>". *)
Lemma predict_generation_loop_example :
  exists new : list (list nat),
    Predict.passes Example.model [0; 1; 2; 4]%nat = [0; 1; 2; 4]%nat :: new /\
    (length new <= Predict.max_length - length [0; 1; 2; 4]%nat)%nat /\
    Sorted (Generation.extends Example.model) ([0; 1; 2; 4]%nat :: new) /\
    (forall ids : list nat,
       Predict.outcome Example.model [0; 1; 2; 4]%nat = Some ids ->
       Forall2 (Generation.next_token Example.model) ([0; 1; 2; 4]%nat :: new) ids /\
       Forall (fun tok => tok <> Generation.end_of_sequence) (removelast ids) /\
       (last ids 0%nat = Generation.end_of_sequence \/
        (length [0; 1; 2; 4]%nat + length new)%nat = Predict.max_length)) /\
    (Predict.outcome Example.model [0; 1; 2; 4]%nat = None ->
     forall tok : nat,
       ~ Generation.next_token Example.model
           (last ([0; 1; 2; 4]%nat :: new) [0; 1; 2; 4]%nat) tok).
Proof.
  apply (@predict_generation_loop Example.model [0; 1; 2; 4]%nat).
  unfold Predict.max_length; simpl; lia.
Defined.
End MoreInstances.
